(** * The tab-grouping request handler of [server.js]

    A shallow embedding of the [POST /group-tabs] handler: the values the
    handler manipulates, the two built-ins it leans on ([JSON.parse] and
    [String.prototype.match] with the two recovery patterns), the retry loop
    around the upstream call, and the handler itself, followed by the
    properties stated about it. *)

From Stdlib Require Import ZArith QArith Qcanon String Ascii List.
From Stdlib Require Import DecimalFacts DecimalPos.
From stdpp Require Import base option list gmap numbers.

Set Warnings "-register-all".
Local Open Scope N_scope.

(** ** Strings

    A JavaScript string is a sequence of UTF-16 code units. *)

Abbreviation jsstring := (list N).

Definition str (s : string) : jsstring := N_of_ascii <$> list_ascii_of_string s.

Definition chr (a : ascii) : N := N_of_ascii a.

Arguments str : simpl never.
Arguments chr : simpl never.

(** The double quote, written by its code. *)
Definition dquote : N := 34.
Definition backslash : N := 92.
Definition backtick : N := 96.
Definition newline : N := 10.

(** [s.substring(0, n)]. *)
Definition substring0 (n : nat) (s : jsstring) : jsstring := take n s.

(** [parts.join(sep)] on an array of strings. *)
Fixpoint join (sep : jsstring) (parts : list jsstring) : jsstring :=
  match parts with
  | [] => []
  | [p] => p
  | p :: rest => p ++ sep ++ join sep rest
  end.

(** [s.startsWith(p)], returning what follows the prefix. *)
Fixpoint strip_prefix (p s : jsstring) : option jsstring :=
  match p, s with
  | [], _ => Some s
  | a :: p', b :: s' => if a =? b then strip_prefix p' s' else None
  | _ :: _, [] => None
  end.

(** ** Values

    Numbers are the exact rationals their literals denote, kept in lowest
    terms: every finite double is such a rational, and the rounding of
    longer literals to binary64 is outside the model.  Objects are finite maps from property
    names to values, which abstracts from the enumeration order of keys. *)

Inductive value :=
| VUndefined
| VNull
| VBool (b : bool)
| VNum (q : Q)
| VStr (s : jsstring)
| VArr (elems : list value)
| VObj (props : gmap jsstring value).

Definition VInt (z : Z) : value := VNum (inject_Z z).

Definition obj (fields : list (jsstring * value)) : value :=
  VObj (list_to_map fields).

(** [typeof v]. *)
Definition typeof (v : value) : jsstring :=
  match v with
  | VUndefined => str "undefined"
  | VNull | VArr _ | VObj _ => str "object"
  | VBool _ => str "boolean"
  | VNum _ => str "number"
  | VStr _ => str "string"
  end.

(** ToBoolean. *)
Definition truthy (v : value) : bool :=
  match v with
  | VUndefined | VNull => false
  | VBool b => b
  | VNum q => negb (Qeq_bool q 0)
  | VStr s => negb (bool_decide (s = []))
  | VArr _ | VObj _ => true
  end.

(** [v === 0] and [v === null]. *)
Definition strict_eq_zero (v : value) : bool :=
  match v with
  | VNum q => Qeq_bool q 0
  | _ => false
  end.

Definition is_null (v : value) : bool :=
  match v with VNull => true | _ => false end.

Definition nullish (v : value) : bool :=
  match v with VUndefined | VNull => true | _ => false end.

(** ** Decimal numerals *)

Definition digit_char (d : N) : N := 48 + d.

Fixpoint uint_chars (d : Decimal.uint) : jsstring :=
  match d with
  | Decimal.Nil => []
  | Decimal.D0 d => digit_char 0 :: uint_chars d
  | Decimal.D1 d => digit_char 1 :: uint_chars d
  | Decimal.D2 d => digit_char 2 :: uint_chars d
  | Decimal.D3 d => digit_char 3 :: uint_chars d
  | Decimal.D4 d => digit_char 4 :: uint_chars d
  | Decimal.D5 d => digit_char 5 :: uint_chars d
  | Decimal.D6 d => digit_char 6 :: uint_chars d
  | Decimal.D7 d => digit_char 7 :: uint_chars d
  | Decimal.D8 d => digit_char 8 :: uint_chars d
  | Decimal.D9 d => digit_char 9 :: uint_chars d
  end.

(** The decimal numeral of a natural number and of an integer, as
    [String(n)] writes them. *)
Definition N_decimal (n : N) : jsstring := uint_chars (N.to_uint n).

Definition Z_decimal (z : Z) : jsstring :=
  match z with
  | Z0 => N_decimal 0
  | Zpos p => N_decimal (Npos p)
  | Zneg p => chr "-" :: N_decimal (Npos p)
  end.

(** ** [JSON.parse]

    A recursive-descent reader of the JSON grammar.  [parse] returns [None]
    where [JSON.parse] throws a [SyntaxError]. *)

Module JSON.

Definition ws (c : N) : bool :=
  (c =? 9) || (c =? 10) || (c =? 13) || (c =? 32).

Fixpoint skip_ws (s : jsstring) : jsstring :=
  match s with
  | c :: r => if ws c then skip_ws r else s
  | [] => []
  end.

Definition digit (c : N) : bool := (48 <=? c) && (c <=? 57).

(** The longest run of digits at the head of [s], read onto [acc]: the
    number read, how many digits it had, and what follows. *)
Fixpoint digits (acc : N) (s : jsstring) : N * nat * jsstring :=
  match s with
  | c :: r =>
    if digit c then
      let '(n, k, rest) := digits (10 * acc + (c - 48)) r in (n, S k, rest)
    else (acc, O, s)
  | [] => (acc, O, [])
  end.

Definition hex_val (c : N) : option N :=
  if digit c then Some (c - 48)
  else if (97 <=? c) && (c <=? 102) then Some (c - 87)
  else if (65 <=? c) && (c <=? 70) then Some (c - 55)
  else None.

(** The character a two-character escape stands for. *)
Definition escape (e : N) : option N :=
  if e =? dquote then Some dquote
  else if e =? backslash then Some backslash
  else if e =? chr "/" then Some (chr "/")
  else if e =? chr "b" then Some 8
  else if e =? chr "f" then Some 12
  else if e =? chr "n" then Some 10
  else if e =? chr "r" then Some 13
  else if e =? chr "t" then Some 9
  else None.

(** A string literal after its opening quote: the characters up to the
    closing quote, and what follows it. *)
Fixpoint parse_string (s : jsstring) : option (jsstring * jsstring) :=
  match s with
  | [] => None
  | c :: r =>
    if c =? dquote then Some ([], r)
    else if c =? backslash then
      match r with
      | [] => None
      | e :: r' =>
        if e =? chr "u" then
          match r' with
          | h1 :: h2 :: h3 :: h4 :: r'' =>
            match hex_val h1, hex_val h2, hex_val h3, hex_val h4 with
            | Some a, Some b, Some c, Some d =>
              match parse_string r'' with
              | Some (t, rest) => Some ((((a * 16 + b) * 16 + c) * 16 + d) :: t, rest)
              | None => None
              end
            | _, _, _, _ => None
            end
          | _ => None
          end
        else
          match escape e with
          | Some x =>
            match parse_string r' with
            | Some (t, rest) => Some (x :: t, rest)
            | None => None
            end
          | None => None
          end
      end
    else if c <? 32 then None
    else
      match parse_string r with
      | Some (t, rest) => Some (c :: t, rest)
      | None => None
      end
  end.

(** The number [(-1)^neg * m * 10^e]. *)
Definition decimal (neg : bool) (m : N) (e : Z) : Q :=
  let z := (if neg then - Z.of_N m else Z.of_N m)%Z in
  Qred (if (0 <=? e)%Z then inject_Z (z * 10 ^ e) else Qmake z (Z.to_pos (10 ^ (- e)))).

(** The parts of a number literal: the integer part, which is 0 or a run
    of digits that does not start with 0; an optional fraction, a point and
    at least one digit, read onto the integer part; an optional exponent, e
    or E, an optional sign and at least one digit. *)
Definition parse_int (s : jsstring) : option (N * jsstring) :=
  match s with
  | c :: r =>
    if digit c then
      if c =? 48 then Some (0, r)
      else let '(i, _, r1) := digits 0 s in Some (i, r1)
    else None
  | [] => None
  end.

Definition parse_frac (i : N) (s : jsstring) : option (N * nat * jsstring) :=
  match s with
  | d :: r =>
    if d =? chr "." then
      match r with
      | x :: _ => if digit x then Some (digits i r) else None
      | [] => None
      end
    else Some (i, O, s)
  | [] => Some (i, O, s)
  end.

Definition parse_exp (s : jsstring) : option (Z * jsstring) :=
  match s with
  | e :: r =>
    if (e =? chr "e") || (e =? chr "E") then
      let '(eneg, r1) :=
        match r with
        | sgn :: r' =>
          if sgn =? chr "-" then (true, r')
          else if sgn =? chr "+" then (false, r')
          else (false, r)
        | [] => (false, r)
        end in
      match r1 with
      | x :: _ =>
        if digit x then
          let '(ev, _, rest) := digits 0 r1 in
          Some ((if eneg then - Z.of_N ev else Z.of_N ev)%Z, rest)
        else None
      | [] => None
      end
    else Some (0%Z, s)
  | [] => Some (0%Z, s)
  end.

(** A number literal. *)
Definition parse_number (s : jsstring) : option (Q * jsstring) :=
  let '(neg, s) :=
    match s with
    | c :: r => if c =? chr "-" then (true, r) else (false, s)
    | [] => (false, s)
    end in
  match parse_int s with
  | Some (i, r1) =>
    match parse_frac i r1 with
    | Some (m, k, r2) =>
      match parse_exp r2 with
      | Some (e, rest) => Some (decimal neg m (e - Z.of_nat k), rest)
      | None => None
      end
    | None => None
    end
  | None => None
  end.

(** A value, the elements of an array after its first bracket, and the
    members of an object after its first brace.  [fuel] bounds the depth of
    the calls; the length of the text is always enough
    ([parse_value_fuel] below). *)
Fixpoint parse_value (fuel : nat) (s : jsstring) : option (value * jsstring) :=
  match fuel with
  | O => None
  | S fuel =>
    match skip_ws s with
    | [] => None
    | c :: r =>
      if c =? chr "{" then
        match skip_ws r with
        | c' :: r' =>
          if c' =? chr "}" then Some (VObj ∅, r')
          else
            match parse_members fuel r with
            | Some (kvs, rest) => Some (VObj (list_to_map (reverse kvs)), rest)
            | None => None
            end
        | [] => None
        end
      else if c =? chr "[" then
        match skip_ws r with
        | c' :: r' =>
          if c' =? chr "]" then Some (VArr [], r')
          else
            match parse_elements fuel r with
            | Some (vs, rest) => Some (VArr vs, rest)
            | None => None
            end
        | [] => None
        end
      else if c =? dquote then
        match parse_string r with
        | Some (t, rest) => Some (VStr t, rest)
        | None => None
        end
      else
        match strip_prefix (str "true") (c :: r) with
        | Some rest => Some (VBool true, rest)
        | None =>
          match strip_prefix (str "false") (c :: r) with
          | Some rest => Some (VBool false, rest)
          | None =>
            match strip_prefix (str "null") (c :: r) with
            | Some rest => Some (VNull, rest)
            | None =>
              match parse_number (c :: r) with
              | Some (q, rest) => Some (VNum q, rest)
              | None => None
              end
            end
          end
        end
    end
  end
with parse_elements (fuel : nat) (s : jsstring) : option (list value * jsstring) :=
  match fuel with
  | O => None
  | S fuel =>
    match parse_value fuel s with
    | Some (v, r) =>
      match skip_ws r with
      | c :: r' =>
        if c =? chr "," then
          match parse_elements fuel r' with
          | Some (vs, rest) => Some (v :: vs, rest)
          | None => None
          end
        else if c =? chr "]" then Some ([v], r')
        else None
      | [] => None
      end
    | None => None
    end
  end
with parse_members (fuel : nat) (s : jsstring)
    : option (list (jsstring * value) * jsstring) :=
  match fuel with
  | O => None
  | S fuel =>
    match skip_ws s with
    | c :: r =>
      if c =? dquote then
        match parse_string r with
        | Some (k, r1) =>
          match skip_ws r1 with
          | c1 :: r2 =>
            if c1 =? chr ":" then
              match parse_value fuel r2 with
              | Some (v, r3) =>
                match skip_ws r3 with
                | c3 :: r4 =>
                  if c3 =? chr "," then
                    match parse_members fuel r4 with
                    | Some (kvs, rest) => Some ((k, v) :: kvs, rest)
                    | None => None
                    end
                  else if c3 =? chr "}" then Some ([(k, v)], r4)
                  else None
                | [] => None
                end
              | None => None
              end
            else None
          | [] => None
          end
        | None => None
        end
      else None
    | [] => None
    end
  end.

(** [JSON.parse(text)]: one value, with nothing but white space after it.
    Of two members with the same name the later one stays. *)
Definition parse (text : jsstring) : option value :=
  match parse_value (length text) text with
  | Some (v, rest) =>
    match skip_ws rest with
    | [] => Some v
    | _ :: _ => None
    end
  | None => None
  end.

End JSON.

(** ** Regular expressions

    The fragment the two recovery patterns are written in, run the way
    [RegExp.prototype.exec] runs a pattern: leftmost start first, and at each
    start the alternatives in the order backtracking tries them. *)

Module RegExp.

Inductive class := Space | Any.

(** [\s] and [[\s\S]] on a code unit. *)
Definition class_mem (k : class) (c : N) : bool :=
  match k with
  | Any => true
  | Space =>
    ((9 <=? c) && (c <=? 13)) || (c =? 32) || (c =? 160) || (c =? 5760)
    || ((8192 <=? c) && (c <=? 8202)) || (c =? 8232) || (c =? 8233)
    || (c =? 8239) || (c =? 8287) || (c =? 12288) || (c =? 65279)
  end.

Inductive regex :=
| Lit (s : jsstring)
| Seq (a b : regex)
| Opt (a : regex)
| Star (k : class)
| LazyStar (k : class)
| Group (a : regex).

(** What [exec] returns: the whole match and the first capture. *)
Record match_array := { whole : jsstring; group1 : option jsstring }.

Section Run.
Context {A : Type}.

(** [run r s cap k] matches [r] at the head of [s] and hands what follows,
    and the capture so far, to [k]; a [None] from [k] makes it backtrack. *)
Fixpoint run (r : regex) (s : jsstring) (cap : option jsstring)
    (k : jsstring → option jsstring → option A) : option A :=
  match r with
  | Lit l =>
    match strip_prefix l s with
    | Some rest => k rest cap
    | None => None
    end
  | Seq a b => run a s cap (λ s' cap', run b s' cap' k)
  | Opt a =>
    match run a s cap k with
    | Some x => Some x
    | None => k s cap
    end
  | Star c =>
    (fix greedy (s : jsstring) : option A :=
       match s with
       | x :: s' =>
         if class_mem c x then
           match greedy s' with
           | Some y => Some y
           | None => k s cap
           end
         else k s cap
       | [] => k [] cap
       end) s
  | LazyStar c =>
    (fix lazy (s : jsstring) : option A :=
       match k s cap with
       | Some y => Some y
       | None =>
         match s with
         | x :: s' => if class_mem c x then lazy s' else None
         | [] => None
         end
       end) s
  | Group a =>
    run a s cap (λ s' _, k s' (Some (take (length s - length s') s)))
  end.
End Run.

Definition match_at (r : regex) (s : jsstring) : option match_array :=
  run r s None
    (λ rest cap, Some {| whole := take (length s - length rest) s; group1 := cap |}).

(** [r.exec(s)] for a pattern without flags; [None] is [null]. *)
Fixpoint exec (r : regex) (s : jsstring) : option match_array :=
  match match_at r s with
  | Some m => Some m
  | None =>
    match s with
    | [] => None
    | _ :: s' => exec r s'
    end
  end.

End RegExp.

(** ** Exceptions, responses and control flow *)

(** The [TypeError]s the handler can provoke.  Their messages are the
    engine's own wording. *)
Inductive type_error :=
| ReadOfNullish (key : jsstring)
| NotAFunction (callee : jsstring)
| NotAnObject
| NotPrimitive.

Inductive exn :=
| TypeError (e : type_error)
| Error (message : jsstring).

(** What the language leaves to the engine. *)
Class Engine := {
  (** [String(x)] for a number that is not an integer below [10^21] *)
  Number_toString : Q → jsstring;
  TypeError_message : type_error → jsstring
}.

(** [error.message]. *)
Definition message `{Engine} (error : exn) : jsstring :=
  match error with
  | TypeError e => TypeError_message e
  | Error m => m
  end.

Record http_response := { status : Z; body : value }.

(** [res.status(code).json(body)] and [res.json(body)]. *)
Definition res_status_json (code : Z) (b : value) : http_response :=
  {| status := code; body := b |}.

Definition res_json (b : value) : http_response := res_status_json 200 b.

(** Where a statement of the handler's [try] block leaves control: at the
    next statement, at a [return], or in the [catch] clause. *)
Inductive step (A : Type) :=
| Continue (a : A)
| Return (r : http_response)
| Throw (e : exn).

Arguments Continue {A} a.
Arguments Return {A} r.
Arguments Throw {A} e.

#[global] Instance step_ret : MRet step := @Continue.

#[global] Instance step_bind : MBind step := λ A B f m,
  match m with
  | Continue a => f a
  | Return r => Return r
  | Throw e => Throw e
  end.

(** The steps of a callback over the elements of an array, in order. *)
Definition map_step {A B : Type} (f : A → step B) : list A → step (list B) :=
  fix each (l : list A) : step (list B) :=
    match l with
    | [] => Continue []
    | a :: l' => b ← f a; bs ← each l'; Continue (b :: bs)
    end.

(** ** Property reads and conversions *)

(** The index a property name denotes, when it is the decimal numeral of
    one. *)
Definition array_index (key : jsstring) : option nat :=
  let '(n, _, rest) := JSON.digits 0 key in
  if bool_decide (rest = [] ∧ key = N_decimal n) then Some (N.to_nat n) else None.

(** [v[key]] for the names the handler reads.  None of them lives on a
    prototype, so what an object, an array or a string does not hold itself
    is [undefined]. *)
Definition Get (v : value) (key : jsstring) : step value :=
  match v with
  | VUndefined | VNull => Throw (TypeError (ReadOfNullish key))
  | VBool _ | VNum _ => Continue VUndefined
  | VStr s =>
    if bool_decide (key = str "length") then Continue (VInt (Z.of_nat (length s)))
    else
      match array_index key with
      | Some i => Continue (from_option (λ c, VStr [c]) VUndefined (s !! i))
      | None => Continue VUndefined
      end
  | VArr elems =>
    if bool_decide (key = str "length") then Continue (VInt (Z.of_nat (length elems)))
    else
      match array_index key with
      | Some i => Continue (default VUndefined (elems !! i))
      | None => Continue VUndefined
      end
  | VObj props => Continue (default VUndefined (props !! key))
  end.

(** [v?.[key]]. *)
Definition GetOpt (v : value) (key : jsstring) : step value :=
  if nullish v then Continue VUndefined else Get v key.

(** [String(q)]. *)
Definition number_string `{Engine} (q : Q) : jsstring :=
  let r := Qred q in
  if bool_decide (Qden r = 1%positive ∧ (Z.abs (Qnum r) < 10 ^ 21)%Z)
  then Z_decimal (Qnum r)
  else Number_toString q.

(** ToString, as a template literal applies it.  An array is joined with
    commas, [null] and [undefined] elements leaving nothing; an object is
    ["[object Object]"] unless a property of its own hides [toString], in
    which case no primitive can be had from it. *)
Fixpoint ToString `{Engine} (v : value) : step jsstring :=
  match v with
  | VUndefined => Continue (str "undefined")
  | VNull => Continue (str "null")
  | VBool b => Continue (if b then str "true" else str "false")
  | VNum q => Continue (number_string q)
  | VStr s => Continue s
  | VArr elems =>
    parts ← map_step (λ e, if nullish e then Continue [] else ToString e) elems;
    Continue (join (str ",") parts)
  | VObj props =>
    if bool_decide (is_Some (props !! str "toString"))
    then Throw (TypeError NotPrimitive)
    else Continue (str "[object Object]")
  end.

(** [Object.keys(v)]; the keys of an object come in the order the map
    lists them. *)
Definition Object_keys (v : value) : step (list jsstring) :=
  match v with
  | VUndefined | VNull => Throw (TypeError NotAnObject)
  | VBool _ | VNum _ => Continue []
  | VStr s => Continue ((λ i, N_decimal (N.of_nat i)) <$> seq 0 (length s))
  | VArr elems => Continue ((λ i, N_decimal (N.of_nat i)) <$> seq 0 (length elems))
  | VObj props => Continue (map_to_list props).*1
  end.

(** ** The upstream collaborator *)

Inductive outcome :=
| Resolved (response : value)
| Rejected (apiError : exn).

(** [ai.models.generateContent]: what its [n]-th call of a request (counted
    from 0) comes back with. *)
Class Upstream := generateContent : nat → value → outcome.

(** What the handler does to the outside world besides answering. *)
Inductive event :=
| Call (request : value)
| Wait (ms : Z).

(** ** The handler of [POST /group-tabs] *)

(** Lines 39-42. *)
Definition check_tabs (tabs : value) : step unit :=
  if negb (truthy tabs) then
    Return (res_status_json 400 (obj [(str "error", VStr (str "No tabs provided"))]))
  else
    len ← Get tabs (str "length");
    if strict_eq_zero len then
      Return (res_status_json 400 (obj [(str "error", VStr (str "No tabs provided"))]))
    else Continue ().

(** The callback of line 48. *)
Definition tab_line `{Engine} (tab : value) : step jsstring :=
  id ← Get tab (str "id");
  id ← ToString id;
  title ← Get tab (str "title");
  title ← ToString title;
  url ← Get tab (str "url");
  url ← ToString url;
  Continue (str "ID:" ++ id ++ str " | " ++ title ++ str " (" ++ url ++ str ")").

(** Lines 47-49: [tabs.map(...).join("\n")]. *)
Definition tabText `{Engine} (tabs : value) : step jsstring :=
  match tabs with
  | VArr elems =>
    lines ← map_step tab_line elems;
    Continue (join [newline] lines)
  | _ => Throw (TypeError (NotAFunction (str "tabs.map")))
  end.

(** Lines 51-61. *)
Definition prompt (tabText : jsstring) : jsstring :=
  join [newline]
    [ str "You are an AI assistant that groups browser tabs into relevant categories. Analyze these browser tabs and group them by topic/purpose.";
      [];
      str "Return ONLY a valid JSON object with NO markdown, NO code blocks, NO explanations. Just the raw JSON.";
      [];
      str "The JSON should have category names as keys (strings) and arrays of tab IDs (integers) as values.";
      [];
      str "Example format:";
      str "{" ++ [dquote] ++ str "Shopping" ++ [dquote] ++ str ": [1, 5], "
        ++ [dquote] ++ str "News" ++ [dquote] ++ str ": [2, 3], "
        ++ [dquote] ++ str "Development" ++ [dquote] ++ str ": [4, 6]}";
      [];
      str "Here are the tabs to group:";
      tabText ].

(** The argument of [generateContent], lines 71-74. *)
Definition request (prompt : jsstring) : value :=
  obj [(str "model", VStr (str "gemini-2.0-flash-001")); (str "contents", VStr prompt)].

Definition maxAttempts : nat := 3.

(** Lines 65-90.  Every call that fails adds one to [attempts], so the
    calls made so far are [attempts] many.  [None] is only for a [fuel] too
    small for the loop to come to its end. *)
Fixpoint attempt_loop `{Upstream} (fuel : nat) (request : value) (attempts : nat)
    : option (list event * step value) :=
  if bool_decide (attempts < maxAttempts)%nat then
    match fuel with
    | O => None
    | S fuel =>
      match generateContent attempts request with
      | Resolved response => Some ([Call request], Continue response)
      | Rejected apiError =>
        let attempts := S attempts in
        if bool_decide (maxAttempts ≤ attempts)%nat then
          Some ([Call request], Throw apiError)
        else
          let waitTime := (1000 * Z.of_nat attempts)%Z in
          match attempt_loop fuel request attempts with
          | Some (trace, r) => Some (Call request :: Wait waitTime :: trace, r)
          | None => None
          end
      end
    end
  else Some ([], Continue VUndefined).

(** The chain [response.candidates?.[0]?.content?.parts?.[0]?.text] of line
    98, and the same chain without its question marks, line 99. *)
Definition candidate_text (response : value) : step value :=
  candidates ← Get response (str "candidates");
  candidate ← GetOpt candidates (str "0");
  content ← GetOpt candidate (str "content");
  parts ← GetOpt content (str "parts");
  part ← GetOpt parts (str "0");
  GetOpt part (str "text").

Definition candidate_text_strict (response : value) : step value :=
  candidates ← Get response (str "candidates");
  candidate ← Get candidates (str "0");
  content ← Get candidate (str "content");
  parts ← Get content (str "parts");
  part ← Get parts (str "0");
  Get part (str "text").

(** Lines 94-111. *)
Definition resultText (response : value) : step value :=
  text ← Get response (str "text");
  if truthy text then Get response (str "text")
  else
    nested ← candidate_text response;
    if truthy nested then candidate_text_strict response
    else if bool_decide (typeof response = str "string") then Continue response
    else
      keys ← Object_keys response;
      Return (res_status_json 500
                (obj [(str "error", VStr (str "Unexpected API response structure"));
                      (str "responseKeys", VArr (VStr <$> keys))])).

(** The receiver of [resultText.substring] and [resultText.match]: only a
    string has these methods. *)
Definition string_receiver (callee : jsstring) (v : value) : step jsstring :=
  match v with
  | VStr s => Continue s
  | _ => Throw (TypeError (NotAFunction callee))
  end.

(** The pattern of line 126: a fence, an optional [json] tag, white space, a
    braced block taken as short as it can be, white space, a fence. *)
Definition re_fenced : RegExp.regex :=
  RegExp.Seq (RegExp.Lit (str "```"))
    (RegExp.Seq (RegExp.Opt (RegExp.Lit (str "json")))
       (RegExp.Seq (RegExp.Star RegExp.Space)
          (RegExp.Seq
             (RegExp.Group
                (RegExp.Seq (RegExp.Lit (str "{"))
                   (RegExp.Seq (RegExp.LazyStar RegExp.Any) (RegExp.Lit (str "}")))))
             (RegExp.Seq (RegExp.Star RegExp.Space) (RegExp.Lit (str "```")))))).

(** The pattern of line 127: a braced block taken as long as it can be. *)
Definition re_braces : RegExp.regex :=
  RegExp.Group
    (RegExp.Seq (RegExp.Lit (str "{"))
       (RegExp.Seq (RegExp.Star RegExp.Any) (RegExp.Lit (str "}")))).

(** Lines 125-127. *)
Definition jsonMatch (resultText : jsstring) : option RegExp.match_array :=
  match RegExp.exec re_fenced resultText with
  | Some m => Some m
  | None => RegExp.exec re_braces resultText
  end.

(** [jsonMatch[1] || jsonMatch[0]], line 131. *)
Definition matched_text (m : RegExp.match_array) : jsstring :=
  match RegExp.group1 m with
  | Some g => if truthy (VStr g) then g else RegExp.whole m
  | None => RegExp.whole m
  end.

(** Lines 116-147. *)
Definition groups (resultText : jsstring) : step value :=
  match JSON.parse resultText with
  | Some v => Continue v
  | None =>
    match jsonMatch resultText with
    | Some m =>
      match JSON.parse (matched_text m) with
      | Some v => Continue v
      | None =>
        Return (res_status_json 500
                  (obj [(str "error", VStr (str "Failed to parse AI response as JSON"));
                        (str "rawResponse", VStr (substring0 500 resultText))]))
      end
    | None =>
      Return (res_status_json 500
                (obj [(str "error", VStr (str "No valid JSON found in AI response"));
                      (str "rawResponse", VStr (substring0 500 resultText))]))
    end
  end.

(** Lines 150-156. *)
Definition check_groups (groups : value) : step value :=
  if bool_decide (typeof groups ≠ str "object") || is_null groups then
    Return (res_status_json 500
              (obj [(str "error", VStr (str "Invalid response structure from AI"));
                    (str "received", groups)]))
  else Continue groups.

(** Lines 37-61: from the request body to the prompt. *)
Definition before_call `{Engine} (body : value) : step jsstring :=
  tabs ← Get body (str "tabs");
  _ ← check_tabs tabs;
  _ ← (len ← Get tabs (str "length"); ToString len);
  text ← tabText tabs;
  Continue (prompt text).

(** Lines 91-161: from the upstream response to the groups. *)
Definition after_call (response : value) : step value :=
  _ ← Object_keys response;
  text ← resultText response;
  text ← string_receiver (str "resultText.substring") text;
  parsed ← groups text;
  check_groups parsed.

(** Lines 162-169, and line 161 for a block that came to its end. *)
Definition respond `{Engine} (s : step value) : http_response :=
  match s with
  | Continue groups => res_json groups
  | Return r => r
  | Throw error =>
    res_status_json 500
      (obj [(str "error", VStr (str "Something went wrong"));
            (str "details", VStr (message error))])
  end.

(** The handler: what it does to the upstream and what it answers. *)
Definition group_tabs `{Engine} `{Upstream} (body : value)
    : option (list event * http_response) :=
  match before_call body with
  | Continue p =>
    match attempt_loop maxAttempts (request p) 0 with
    | Some (trace, r) => Some (trace, respond (response ← r; after_call response))
    | None => None
    end
  | Return r => Some ([], r)
  | Throw error => Some ([], respond (Throw error))
  end.

(** ** Vocabulary of the properties *)

(** A tab as the extension sends it, and the object it arrives as. *)
Record Tab := { tab_id : Z; tab_title : jsstring; tab_url : jsstring }.

Definition tab_value (t : Tab) : value :=
  obj [(str "id", VInt (tab_id t));
       (str "title", VStr (tab_title t));
       (str "url", VStr (tab_url t))].

(** The line [ID:<id> | <title> (<url>)] of a tab. *)
Definition tab_line_text `{Engine} (t : Tab) : jsstring :=
  str "ID:" ++ number_string (inject_Z (tab_id t)) ++ str " | " ++ tab_title t
    ++ str " (" ++ tab_url t ++ str ")".

(** The body [{"error": "No tabs provided"}]. *)
Definition no_tabs_body : value :=
  obj [(str "error", VStr (str "No tabs provided"))].

(** The body of the catch-all answer for an exception. *)
Definition went_wrong_body `{Engine} (error : exn) : value :=
  obj [(str "error", VStr (str "Something went wrong"));
       (str "details", VStr (message error))].

(** The bodies of the two answers of the recovery step that found no JSON. *)
Definition parse_error_body (error : jsstring) (rawResponse : jsstring) : value :=
  obj [(str "error", VStr error); (str "rawResponse", VStr rawResponse)].

(** A mapping from category names to tab ids, the value it is as a parsed
    object, and its JSON text without white space. *)
Definition mapping_value (M : gmap jsstring (list Z)) : value :=
  VObj ((λ ids, VArr (VInt <$> ids)) <$> M).

Definition hex_digit (n : N) : N := if n <? 10 then 48 + n else 87 + n.

Definition quote_char (c : N) : jsstring :=
  if c =? dquote then [backslash; dquote]
  else if c =? backslash then [backslash; backslash]
  else if c =? 8 then [backslash; chr "b"]
  else if c =? 9 then [backslash; chr "t"]
  else if c =? 10 then [backslash; chr "n"]
  else if c =? 12 then [backslash; chr "f"]
  else if c =? 13 then [backslash; chr "r"]
  else if c <? 32 then [backslash; chr "u"; 48; 48; hex_digit (c / 16); hex_digit (c mod 16)]
  else [c].

Definition quote_body (s : jsstring) : jsstring := s ≫= quote_char.

Definition quote (s : jsstring) : jsstring := dquote :: quote_body s ++ [dquote].

Definition ids_text (ids : list Z) : jsstring :=
  chr "[" :: join [chr ","] (Z_decimal <$> ids) ++ [chr "]"].

Definition member_text (kv : jsstring * list Z) : jsstring :=
  quote kv.1 ++ chr ":" :: ids_text kv.2.

Definition members_text (kvs : list (jsstring * list Z)) : jsstring :=
  chr "{" :: join [chr ","] (member_text <$> kvs) ++ [chr "}"].

Definition mapping_text (M : gmap jsstring (list Z)) : jsstring :=
  members_text (map_to_list M).

(** A text in a [json] fence with prose around it. *)
Definition fenced (before text after : jsstring) : jsstring :=
  before ++ str "```json" ++ newline :: text ++ newline :: str "```" ++ after.

(** How the fenced pattern begins and how it ends. *)
Definition re_open : RegExp.regex :=
  RegExp.Seq (RegExp.Lit (str "```"))
    (RegExp.Seq (RegExp.Opt (RegExp.Lit (str "json")))
       (RegExp.Seq (RegExp.Star RegExp.Space) (RegExp.Lit (str "{")))).

Definition re_close : RegExp.regex :=
  RegExp.Seq (RegExp.Lit (str "}"))
    (RegExp.Seq (RegExp.Star RegExp.Space) (RegExp.Lit (str "```"))).

(** The words of a pattern, whatever the order its matcher tries them in. *)
Inductive matches : RegExp.regex → jsstring → Prop :=
| matches_lit l : matches (RegExp.Lit l) l
| matches_seq a b u v : matches a u → matches b v → matches (RegExp.Seq a b) (u ++ v)
| matches_opt_none a : matches (RegExp.Opt a) []
| matches_opt_some a u : matches a u → matches (RegExp.Opt a) u
| matches_star c u :
    Forall (λ x, RegExp.class_mem c x = true) u → matches (RegExp.Star c) u
| matches_lazy c u :
    Forall (λ x, RegExp.class_mem c x = true) u → matches (RegExp.LazyStar c) u
| matches_group a u : matches a u → matches (RegExp.Group a) u.

(** Whether a double quote comes before the end of the line, and whether
    that holds after every backtick of a text: it does in the text of any
    JSON value, where a backtick can stand in a string literal only. *)
Fixpoint quote_before_newline (s : jsstring) : bool :=
  match s with
  | [] => false
  | c :: r =>
    if c =? dquote then true
    else if c =? newline then false
    else quote_before_newline r
  end.

Fixpoint backticks_quoted (s : jsstring) : bool :=
  match s with
  | [] => true
  | c :: r =>
    (if c =? backtick then quote_before_newline r else true) && backticks_quoted r
  end.

(** The number a numeral denotes when read onto [acc]. *)
Fixpoint uint_val (d : Decimal.uint) (acc : N) : N :=
  match d with
  | Decimal.Nil => acc
  | Decimal.D0 d => uint_val d (10 * acc + 0)
  | Decimal.D1 d => uint_val d (10 * acc + 1)
  | Decimal.D2 d => uint_val d (10 * acc + 2)
  | Decimal.D3 d => uint_val d (10 * acc + 3)
  | Decimal.D4 d => uint_val d (10 * acc + 4)
  | Decimal.D5 d => uint_val d (10 * acc + 5)
  | Decimal.D6 d => uint_val d (10 * acc + 6)
  | Decimal.D7 d => uint_val d (10 * acc + 7)
  | Decimal.D8 d => uint_val d (10 * acc + 8)
  | Decimal.D9 d => uint_val d (10 * acc + 9)
  end.

(** What a parse reads off the head of [s] to leave [rest]: at least one
    character, and no backtick outside of a string literal. *)
Definition consumed (s rest : jsstring) : Prop :=
  ∃ pre, s = pre ++ rest ∧ pre ≠ [] ∧ backticks_quoted pre = true.

(** The bodies of the answers to a response without a text, and to groups
    that are no object. *)
Definition unexpected_body (keys : list jsstring) : value :=
  obj [(str "error", VStr (str "Unexpected API response structure"));
       (str "responseKeys", VArr (VStr <$> keys))].

Definition invalid_body (received : value) : value :=
  obj [(str "error", VStr (str "Invalid response structure from AI"));
       (str "received", received)].

(** The [error] of an answer, and the messages it can be. *)
Definition error_of (r : http_response) : option value :=
  match body r with
  | VObj props => props !! str "error"
  | _ => None
  end.

Definition error_messages : list jsstring :=
  [ str "No tabs provided";
    str "Something went wrong";
    str "Unexpected API response structure";
    str "Failed to parse AI response as JSON";
    str "No valid JSON found in AI response";
    str "Invalid response structure from AI" ].

Definition is_TypeError (e : exn) : Prop := ∃ t, e = TypeError t.

(** The events of [failures] failed calls, each with the wait that follows
    it, and of the call after them. *)
Definition backoff (request : value) (failures : nat) : list event :=
  flat_map (λ n, [Call request; Wait (1000 * Z.of_nat (S n))]) (seq 0 failures)
    ++ [Call request].

(** An upstream response with its text in the first part of the first
    candidate. *)
Definition candidates_response (text : jsstring) : value :=
  obj [(str "candidates",
        VArr [obj [(str "content",
                    obj [(str "parts", VArr [obj [(str "text", VStr text)]])])]])].

(** The tab whose title spells out the end of the line of [t1] and the
    start of the line of [t2]. *)
Definition merged `{Engine} (t1 t2 : Tab) : Tab :=
  {| tab_id := tab_id t1;
     tab_title := tab_title t1 ++ str " (" ++ tab_url t1 ++ str ")" ++ [newline]
                    ++ str "ID:" ++ number_string (inject_Z (tab_id t2)) ++ str " | "
                    ++ tab_title t2;
     tab_url := tab_url t2 |}.

(** The words of a pattern with the capture they leave: [captures r w c c']
    when [w] is a word of [r] that turns the capture [c] into [c']. *)
Inductive captures : RegExp.regex → jsstring → option jsstring → option jsstring → Prop :=
| captures_lit l c : captures (RegExp.Lit l) l c c
| captures_seq a b u v c c1 c2 :
    captures a u c c1 → captures b v c1 c2 → captures (RegExp.Seq a b) (u ++ v) c c2
| captures_opt_none a c : captures (RegExp.Opt a) [] c c
| captures_opt_some a u c c' : captures a u c c' → captures (RegExp.Opt a) u c c'
| captures_star k u c : captures (RegExp.Star k) u c c
| captures_lazy k u c : captures (RegExp.LazyStar k) u c c
| captures_group a u c c' : captures a u c c' → captures (RegExp.Group a) u c (Some u).

(** ** An engine and upstreams to run examples on *)

(** V8's wording of the messages.  The examples convert no number to a
    string but integers. *)
Definition v8_engine : Engine :=
  {| Number_toString := λ _, str "NaN";
     TypeError_message := λ e,
       match e with
       | ReadOfNullish key =>
         str "Cannot read properties of undefined (reading '" ++ key ++ str "')"
       | NotAFunction callee => callee ++ str " is not a function"
       | NotAnObject => str "Cannot convert undefined or null to object"
       | NotPrimitive => str "Cannot convert object to primitive value"
       end |}.

(** An upstream that answers its calls from a script and fails once the
    script is over. *)
Definition scripted (script : list outcome) : Upstream :=
  λ n _, default (Rejected (Error (str "fetch failed"))) (script !! n).

(** An upstream response with a direct text field. *)
Definition text_response (text : jsstring) : value :=
  obj [(str "text", VStr text)].

(** A tab, the request that sends it, and the prompt it makes. *)
Definition demo_tab : Tab :=
  {| tab_id := 7; tab_title := str "Inbox"; tab_url := str "https://mail.example" |}.

Definition demo_body : value := obj [(str "tabs", VArr [tab_value demo_tab])].

Definition demo_prompt : jsstring :=
  prompt (str "ID:7 | Inbox (https://mail.example)").

(** A mapping, and an upstream that fails twice before it answers with the
    text of that mapping. *)
Definition demo_mapping : gmap jsstring (list Z) := {[ str "Work" := [1; 2]%Z ]}.

Definition flaky : Upstream :=
  scripted [Rejected (Error (str "503")); Rejected (Error (str "timeout"));
            Resolved (text_response (mapping_text demo_mapping))].

(** A response with a direct text and a nested one. *)
Definition both_shapes : value :=
  obj [(str "text", VStr (str "direct"));
       (str "candidates",
        VArr [obj [(str "content",
                    obj [(str "parts", VArr [obj [(str "text", VStr (str "nested"))]])])]])].

(** A mapping with a key that reads like the end of a fenced block. *)
Definition brace_key : gmap jsstring (list Z) := {[ str "}```" := [1]%Z ]}.

(** A request whose list of tabs ends in a hole. *)
Definition holed_body : value := obj [(str "tabs", VArr [tab_value demo_tab; VNull])].

(** An upstream that fails once and then resolves with nothing. *)
Definition hollow : Upstream :=
  scripted [Rejected (Error (str "503")); Resolved VNull].

(** A second tab. *)
Definition other_tab : Tab :=
  {| tab_id := 9; tab_title := str "News"; tab_url := str "https://news.example" |}.

(** A response that carries usage figures and no text. *)
Definition usage_response : value := obj [(str "usageMetadata", VInt 12)].

(** A mapping in the middle of a sentence. *)
Definition chatty : jsstring :=
  str "Sure! " ++ mapping_text demo_mapping ++ str " Hope this helps.".

(** ** Proof steps *)

Ltac binds := unfold mbind, step_bind.

(** Literal strings and characters, as the code units they are. *)
Ltac literals :=
  repeat match goal with
         | |- context [str ?s] =>
           let v := eval vm_compute in (str s) in change (str s) with v
         | |- context [chr ?a] =>
           let v := eval vm_compute in (chr a) in change (chr a) with v
         end.

(** Case analysis on the innermost scrutinee of the goal. *)
Ltac case_step :=
  match goal with
  | |- context [match ?x with _ => _ end] =>
    lazymatch x with
    | context [match _ with _ => _ end] => fail
    | _ => let E := fresh "E" in destruct x eqn:E
    end
  end.

(** The words of a sequence, a group and a literal, taken apart. *)
Ltac inv_matches :=
  repeat match goal with
         | H : matches (RegExp.Seq _ _) _ |- _ => inversion H; clear H; subst
         | H : matches (RegExp.Group _) _ |- _ => inversion H; clear H; subst
         | H : matches (RegExp.Lit _) _ |- _ => inversion H; clear H; subst
         end.

(** The same for the words with their captures. *)
Ltac inv_captures :=
  repeat match goal with
         | H : captures (RegExp.Seq _ _) _ _ _ |- _ => inversion H; clear H; subst
         | H : captures (RegExp.Group _) _ _ _ |- _ => inversion H; clear H; subst
         | H : captures (RegExp.Lit _) _ _ _ |- _ => inversion H; clear H; subst
         | H : captures (RegExp.Star _) _ _ _ |- _ => inversion H; clear H; subst
         | H : captures (RegExp.LazyStar _) _ _ _ |- _ => inversion H; clear H; subst
         end.

(** Closed decidable facts, by computation. *)
Ltac by_compute := apply (bool_decide_unpack _); vm_compute; exact I.

(** * Properties *)

(** ** Induction on values and steps *)

Lemma value_elems_ind (P : value → Prop) :
  P VUndefined → P VNull → (∀ b, P (VBool b)) → (∀ q, P (VNum q)) → (∀ s, P (VStr s)) →
  (∀ elems, Forall P elems → P (VArr elems)) → (∀ props, P (VObj props)) →
  ∀ v, P v.
Proof.
  intros Hu Hn Hb Hq Hs Ha Ho.
  fix IH 1.
  intros [ | | b | q | s | elems | props];
    [exact Hu | exact Hn | apply Hb | apply Hq | apply Hs | | apply Ho].
  apply Ha. induction elems as [|e elems IHe]; constructor; [apply IH | exact IHe].
Qed.

Lemma map_step_cases {A B : Type} (f : A → step B) (e0 : exn) l :
  Forall (λ a, (∃ b, f a = Continue b) ∨ f a = Throw e0) l →
  (∃ bs, map_step f l = Continue bs) ∨ map_step f l = Throw e0.
Proof.
  induction 1 as [|a l Ha _ IH]; simpl; [eauto|].
  binds. destruct Ha as [[b ->] | ->]; [|by right].
  destruct IH as [[bs ->] | ->]; eauto.
Qed.

Section Properties.
Context `{Engine} `{Upstream}.

Lemma strict_eq_zero_VInt z : strict_eq_zero (VInt z) = bool_decide (z = 0%Z).
Proof.
  unfold strict_eq_zero, VInt, Qeq_bool. simpl.
  case_bool_decide as Hz.
  - subst. reflexivity.
  - apply Z.eqb_neq. lia.
Qed.

Lemma Get_length_array elems :
  Get (VArr elems) (str "length") = Continue (VInt (Z.of_nat (length elems))).
Proof. reflexivity. Qed.

Lemma Get_total v key : nullish v = false → ∃ x, Get v key = Continue x.
Proof.
  destruct v; simpl; try discriminate; intros _; eauto.
  - case_bool_decide; eauto. destruct (array_index key); eauto.
  - case_bool_decide; eauto. destruct (array_index key); eauto.
Qed.

Lemma Get_no_return v key r : Get v key ≠ Return r.
Proof.
  destruct v; simpl; try discriminate.
  - case_bool_decide; [discriminate|]. destruct (array_index key); discriminate.
  - case_bool_decide; [discriminate|]. destruct (array_index key); discriminate.
Qed.

Lemma GetOpt_no_return v key r : GetOpt v key ≠ Return r.
Proof. unfold GetOpt. destruct (nullish v); [discriminate|apply Get_no_return]. Qed.

Lemma truthy_not_nullish v : truthy v = true → nullish v = false.
Proof. by destruct v. Qed.

Lemma check_tabs_nonempty elems :
  elems ≠ [] → check_tabs (VArr elems) = Continue ().
Proof.
  intros Hne. unfold check_tabs. rewrite Get_length_array.
  binds. unfold truthy, negb.
  rewrite strict_eq_zero_VInt. rewrite bool_decide_eq_false_2; [reflexivity|].
  destruct elems; [done | simpl; lia].
Qed.

Lemma ToString_cases v :
  (∃ s, ToString v = Continue s) ∨ ToString v = Throw (TypeError NotPrimitive).
Proof.
  induction v as [ | | b | q | s | elems IH | props] using value_elems_ind;
    simpl; eauto.
  - binds.
    destruct (map_step_cases (λ e, if nullish e then Continue [] else ToString e)
                (TypeError NotPrimitive) elems) as [[bs ->] | ->]; eauto.
    eapply Forall_impl; [|exact IH]. intros e He. simpl. destruct (nullish e); eauto.
  - case_bool_decide; eauto.
Qed.

(** Responses of the stages *)
Lemma group_tabs_before_return body r :
  before_call body = Return r → group_tabs body = Some ([], r).
Proof. intros Hb. unfold group_tabs. by rewrite Hb. Qed.

Lemma group_tabs_before_throw body e :
  before_call body = Throw e →
  group_tabs body = Some ([], res_status_json 500 (went_wrong_body e)).
Proof. intros Hb. unfold group_tabs. by rewrite Hb. Qed.

Lemma attempt_loop_total request attempts fuel :
  (maxAttempts - attempts ≤ fuel)%nat →
  ∃ trace r, attempt_loop fuel request attempts = Some (trace, r).
Proof.
  revert attempts. induction fuel as [|fuel IH]; intros attempts Hf; simpl.
  - rewrite bool_decide_eq_false_2 by lia. eauto.
  - case_bool_decide; [|eauto].
    destruct (generateContent attempts request); [eauto|].
    case_bool_decide; [eauto|].
    destruct (IH (S attempts)) as (t & r & ->); [lia|]. eauto.
Qed.

Lemma attempt_loop_no_return fuel request attempts trace s r :
  attempt_loop fuel request attempts = Some (trace, s) → s ≠ Return r.
Proof.
  revert attempts trace s. induction fuel as [|fuel IH]; intros attempts trace s; simpl.
  - case_bool_decide; [discriminate|]. by intros [= <- <-].
  - case_bool_decide; [|by intros [= <- <-]].
    destruct (generateContent attempts request); [by intros [= <- <-]|].
    case_bool_decide; [by intros [= <- <-]|].
    destruct (attempt_loop fuel request (S attempts)) as [[t s']|] eqn:Hl; [|discriminate].
    intros [= <- <-]. by eapply IH.
Qed.

Lemma group_tabs_total body : ∃ trace r, group_tabs body = Some (trace, r).
Proof.
  unfold group_tabs. destruct (before_call body) as [p | r | e]; eauto.
  destruct (attempt_loop_total (request p) 0 maxAttempts) as (t & r & ->); [lia|].
  eauto.
Qed.

Lemma candidate_text_no_return response r : candidate_text response ≠ Return r.
Proof.
  unfold candidate_text. binds.
  repeat (case_step; try discriminate;
          try match goal with
              | E : Get _ _ = Return _ |- _ => by apply Get_no_return in E
              | E : GetOpt _ _ = Return _ |- _ => by apply GetOpt_no_return in E
              end).
  apply GetOpt_no_return.
Qed.

Lemma candidate_text_strict_no_return response r :
  candidate_text_strict response ≠ Return r.
Proof.
  unfold candidate_text_strict. binds.
  repeat (case_step; try discriminate;
          try match goal with
              | E : Get _ _ = Return _ |- _ => by apply Get_no_return in E
              end).
  apply Get_no_return.
Qed.

Lemma resultText_return response r :
  resultText response = Return r → status r = 500%Z.
Proof.
  unfold resultText. binds.
  destruct (Get response (str "text")) as [text | r0 | e] eqn:Ht; try discriminate.
  - destruct (truthy text); [discriminate|].
    destruct (candidate_text response) as [nested | r1 | e] eqn:Hn; try discriminate.
    + destruct (truthy nested).
      { intros Hs. by apply candidate_text_strict_no_return in Hs. }
      case_bool_decide; [discriminate|].
      destruct (Object_keys response) eqn:Hk; try discriminate.
      * intros [= <-]. reflexivity.
      * destruct response; discriminate.
    + by apply candidate_text_no_return in Hn.
  - by apply Get_no_return in Ht.
Qed.

Lemma groups_return text r : groups text = Return r → status r = 500%Z.
Proof.
  unfold groups.
  repeat (case_step; try discriminate).
  all: intros [= <-]; reflexivity.
Qed.

Lemma check_groups_return v r : check_groups v = Return r → status r = 500%Z.
Proof.
  unfold check_groups. destruct (_ || _); [|discriminate].
  intros [= <-]. reflexivity.
Qed.

Lemma after_call_return response r :
  after_call response = Return r → status r = 500%Z.
Proof.
  unfold after_call. binds.
  destruct (Object_keys response) as [keys | r0 | e] eqn:Hk; try discriminate.
  { destruct (resultText response) as [text | r1 | e] eqn:Ht; try discriminate.
    - destruct (string_receiver _ text) as [s | r2 | e] eqn:Hs; try discriminate.
      + destruct (groups s) as [g | r3 | e] eqn:Hg; try discriminate.
        * apply check_groups_return.
        * intros [= <-]. by eapply groups_return.
      + destruct text; discriminate.
    - intros [= <-]. by eapply resultText_return. }
  destruct response; discriminate.
Qed.

Lemma respond_status s :
  (∀ r, s = Return r → status r = 500%Z) →
  status (respond s) = 200%Z ∨ status (respond s) = 500%Z.
Proof. destruct s as [g | r | e]; simpl; eauto. Qed.

Lemma group_tabs_status body trace r :
  group_tabs body = Some (trace, r) →
  (∀ r', before_call body ≠ Return r') →
  status r = 200%Z ∨ status r = 500%Z.
Proof.
  unfold group_tabs. intros Hg Hb.
  destruct (before_call body) as [p | r0 | e].
  - destruct (attempt_loop _ _ _) as [[t s]|] eqn:Hl; [|discriminate].
    injection Hg as <- <-. apply respond_status.
    destruct s as [resp | r1 | e]; simpl; try discriminate.
    + apply after_call_return.
    + intros r' _. by destruct (attempt_loop_no_return _ _ _ _ _ r1 Hl).
  - by destruct (Hb r0).
  - injection Hg as <- <-. by right.
Qed.

Lemma before_call_checked body tabs :
  Get body (str "tabs") = Continue tabs →
  check_tabs tabs = Continue () →
  before_call body =
    (_ ← (len ← Get tabs (str "length"); ToString len);
     text ← tabText tabs;
     Continue (prompt text)).
Proof. intros Hb Hc. unfold before_call. rewrite Hb. binds. by rewrite Hc. Qed.

Lemma ToString_no_return v r : ToString v ≠ Return r.
Proof. destruct (ToString_cases v) as [[s ->] | ->]; discriminate. Qed.

Lemma map_step_no_return {A B : Type} (f : A → step B) l r :
  (∀ a r', f a ≠ Return r') → map_step f l ≠ Return r.
Proof.
  intros Hf. induction l as [|a l IH]; simpl; [discriminate|].
  binds. destruct (f a) eqn:Ha; try discriminate.
  - destruct (map_step f l); try discriminate. done.
  - by apply Hf in Ha.
Qed.

Lemma tab_line_no_return tab r : tab_line tab ≠ Return r.
Proof.
  unfold tab_line. binds.
  repeat (case_step; try discriminate;
          try match goal with
              | E : Get _ _ = Return _ |- _ => by apply Get_no_return in E
              | E : ToString _ = Return _ |- _ => by apply ToString_no_return in E
              end).
Qed.

Lemma tabText_no_return tabs r : tabText tabs ≠ Return r.
Proof.
  destruct tabs; simpl; try discriminate.
  binds. destruct (map_step tab_line elems) eqn:Hm; try discriminate.
  apply map_step_no_return in Hm; [done|]. intros. apply tab_line_no_return.
Qed.

(** C7.  When the request body has no tabs, or an empty list of them, the
    answer is 400 with the body [{"error": "No tabs provided"}] and the
    upstream is not called.  A list of tabs that is not empty passes the
    check of lines 39-42, and the answer is never a 400. *)
Theorem input_validation body tabs :
  Get body (str "tabs") = Continue tabs →
  (tabs = VUndefined ∨ tabs = VArr [] →
     group_tabs body = Some ([], res_status_json 400 no_tabs_body))
  ∧ (∀ elems, tabs = VArr elems → elems ≠ [] →
       check_tabs tabs = Continue ()
       ∧ ∃ trace r, group_tabs body = Some (trace, r) ∧ status r ≠ 400%Z).
Proof.
  intros Hb. split.
  - intros Ht. apply group_tabs_before_return.
    unfold before_call. rewrite Hb. by destruct Ht as [-> | ->].
  - intros elems -> Hne.
    pose proof (check_tabs_nonempty elems Hne) as Hc. split; [exact Hc|].
    destruct (group_tabs_total body) as (trace & r & Hg).
    exists trace, r. split; [exact Hg|].
    assert (Hnr : ∀ r', before_call body ≠ Return r').
    { intros r'. rewrite (before_call_checked _ _ Hb Hc), Get_length_array.
      binds. simpl ToString.
      destruct (tabText (VArr elems)) eqn:Ht; try discriminate.
      by apply tabText_no_return in Ht. }
    destruct (group_tabs_status body trace r Hg Hnr) as [Hs | Hs]; rewrite Hs; done.
Qed.

(** C10, as amended.  The check of lines 39-42 looks at the truth of [tabs]
    and at its [length], not at its being an array.  When [tabs] is truthy,
    is no array, and has a [length] that is not 0, the request goes past the
    check and ends in the catch-all: 500 "Something went wrong", with the
    message of a [TypeError], and no upstream call. *)
Theorem non_array_tabs body tabs :
  Get body (str "tabs") = Continue tabs →
  truthy tabs = true →
  (∀ elems, tabs ≠ VArr elems) →
  (∀ len, Get tabs (str "length") = Continue len → strict_eq_zero len = false) →
  ∃ e, group_tabs body = Some ([], res_status_json 500 (went_wrong_body (TypeError e))).
Proof.
  intros Hb Ht Harr Hlen.
  destruct (Get_total tabs (str "length") (truthy_not_nullish _ Ht)) as [len Hl].
  assert (Hc : check_tabs tabs = Continue ()).
  { unfold check_tabs. rewrite Ht, Hl. binds. simpl. by rewrite (Hlen len Hl). }
  assert (Hm : tabText tabs = Throw (TypeError (NotAFunction (str "tabs.map")))).
  { destruct tabs; try reflexivity. by destruct (Harr elems). }
  destruct (ToString_cases len) as [[s Hs] | Hs].
  - exists (NotAFunction (str "tabs.map")). apply group_tabs_before_throw.
    rewrite (before_call_checked _ _ Hb Hc), Hl. binds. by rewrite Hs, Hm.
  - exists NotPrimitive. apply group_tabs_before_throw.
    rewrite (before_call_checked _ _ Hb Hc), Hl. binds. by rewrite Hs.
Qed.

(** C3.  When the upstream fails twice and then succeeds, the handler calls
    it three times, waits 1000 ms after the first failure and 2000 ms after
    the second, and goes on with the third response.  When the first call
    succeeds there is no other call. *)
Theorem retry_until_success body p :
  before_call body = Continue p →
  (∀ e1 e2 response,
     generateContent 0 (request p) = Rejected e1 →
     generateContent 1 (request p) = Rejected e2 →
     generateContent 2 (request p) = Resolved response →
     group_tabs body =
       Some ([Call (request p); Wait 1000; Call (request p); Wait 2000; Call (request p)],
             respond (after_call response)))
  ∧ (∀ response,
       generateContent 0 (request p) = Resolved response →
       group_tabs body = Some ([Call (request p)], respond (after_call response))).
Proof.
  intros Hb. unfold group_tabs. rewrite Hb. split.
  - intros e1 e2 response H1 H2 H3. simpl. by rewrite H1, H2, H3.
  - intros response H1. simpl. by rewrite H1.
Qed.

(** C4.  When the upstream fails every time, the handler calls it three
    times and no more, and answers 500 "Something went wrong" with the
    message of the third failure as its details. *)
Theorem retry_exhausted body p (failure : nat → exn) :
  before_call body = Continue p →
  (∀ n, generateContent n (request p) = Rejected (failure n)) →
  group_tabs body =
    Some ([Call (request p); Wait 1000; Call (request p); Wait 2000; Call (request p)],
          res_status_json 500 (went_wrong_body (failure 2%nat))).
Proof.
  intros Hb Hf. unfold group_tabs. rewrite Hb. simpl. by rewrite !Hf.
Qed.

(** C1, as amended.  The check of lines 150-156 lets through every value
    whose [typeof] is ["object"] and that is not [null]: the objects, the
    empty one among them, and the arrays.  Every other value is answered
    with 500 "Invalid response structure from AI". *)
Theorem check_groups_spec v :
  match v with
  | VArr _ | VObj _ => check_groups v = Continue v
  | _ =>
    check_groups v =
      Return (res_status_json 500
                (obj [(str "error", VStr (str "Invalid response structure from AI"));
                      (str "received", v)]))
  end.
Proof. by destruct v. Qed.

(** C8, as amended.  Whenever the recovery step answers for itself, the
    answer is a 500 whose [rawResponse] is [text.substring(0, 500)]: the
    first 500 code units of a longer text, and the whole of a text of 500
    code units or fewer. *)
Theorem parse_error_prefix text r :
  groups text = Return r →
  ∃ error,
    (error = str "Failed to parse AI response as JSON"
     ∨ error = str "No valid JSON found in AI response")
    ∧ r = res_status_json 500 (parse_error_body error (take 500 text))
    ∧ length (take 500 text) = (500 `min` length text)%nat
    ∧ (take 500 text = text ↔ (length text ≤ 500)%nat).
Proof.
  unfold groups. intros Hr.
  assert (Hlen : length (take 500 text) = (500 `min` length text)%nat)
    by apply length_take.
  assert (Hfull : take 500 text = text ↔ (length text ≤ 500)%nat).
  { split; [intros Heq; rewrite <- Heq, Hlen; lia | apply take_ge]. }
  destruct (JSON.parse text); [discriminate|].
  destruct (jsonMatch text) as [m|].
  - destruct (JSON.parse (matched_text m)); [discriminate|].
    injection Hr as <-. eexists. split; [by left|]. done.
  - injection Hr as <-. eexists. split; [by right|]. done.
Qed.
Lemma GetOpt_undefined key : GetOpt VUndefined key = Continue VUndefined.
Proof. reflexivity. Qed.

Lemma GetOpt_truthy v key x :
  GetOpt v key = Continue x → truthy x = true → Get v key = Continue x ∧ nullish v = false.
Proof.
  unfold GetOpt. destruct (nullish v); [|done].
  intros [= <-]. discriminate.
Qed.

Lemma GetOpt_nullish_chain v key x :
  GetOpt v key = Continue x → nullish x = false → Get v key = Continue x ∧ nullish v = false.
Proof.
  unfold GetOpt. destruct (nullish v); [|done].
  intros [= <-]. discriminate.
Qed.

Lemma candidate_text_strict_eq response nested :
  candidate_text response = Continue nested →
  truthy nested = true →
  candidate_text_strict response = Continue nested.
Proof.
  unfold candidate_text, candidate_text_strict. binds.
  destruct (Get response (str "candidates")) as [c0 | |]; try discriminate.
  destruct (GetOpt c0 (str "0")) as [c1 | |] eqn:H1; try discriminate.
  destruct (GetOpt c1 (str "content")) as [c2 | |] eqn:H2; try discriminate.
  destruct (GetOpt c2 (str "parts")) as [c3 | |] eqn:H3; try discriminate.
  destruct (GetOpt c3 (str "0")) as [c4 | |] eqn:H4; try discriminate.
  intros H5 Ht.
  apply GetOpt_truthy in H5 as [H5 N4]; [|done].
  apply GetOpt_nullish_chain in H4 as [H4 N3]; [|done].
  apply GetOpt_nullish_chain in H3 as [H3 N2]; [|done].
  apply GetOpt_nullish_chain in H2 as [H2 N1]; [|done].
  apply GetOpt_nullish_chain in H1 as [H1 N0]; [|done].
  by rewrite H1, H2, H3, H4.
Qed.

(** C5.  The text of a response is its direct [text] when that is a string
    that is not empty, whatever else the response holds; failing a truthy
    [text], the text of its first candidate's first part when that is
    truthy; failing both, the response itself when it is a string. *)
Theorem text_extraction_priority response :
  (∀ s, Get response (str "text") = Continue (VStr s) → s ≠ [] →
     resultText response = Continue (VStr s))
  ∧ (∀ text nested,
       Get response (str "text") = Continue text → truthy text = false →
       candidate_text response = Continue nested → truthy nested = true →
       resultText response = Continue nested)
  ∧ (∀ text nested,
       Get response (str "text") = Continue text → truthy text = false →
       candidate_text response = Continue nested → truthy nested = false →
       typeof response = str "string" →
       resultText response = Continue response).
Proof.
  unfold resultText. split; [|split].
  - intros s Ht Hs. rewrite Ht. binds. simpl. by rewrite bool_decide_eq_false_2.
  - intros text nested Ht Hf Hn Hy. rewrite Ht. binds. rewrite Hf, Hn, Hy.
    by apply candidate_text_strict_eq.
  - intros text nested Ht Hf Hn Hy Hs. rewrite Ht. binds. rewrite Hf, Hn, Hy.
    by rewrite bool_decide_eq_true_2.
Qed.

Lemma tab_line_tab t : tab_line (tab_value t) = Continue (tab_line_text t).
Proof. reflexivity. Qed.

Lemma map_step_cons {A B : Type} (f : A → step B) a l :
  map_step f (a :: l) = (b ← f a; bs ← map_step f l; Continue (b :: bs)).
Proof. reflexivity. Qed.

Lemma map_step_continue {A B C : Type} (f : B → step C) (g : A → B) (h : A → C) l :
  (∀ a, f (g a) = Continue (h a)) → map_step f (g <$> l) = Continue (h <$> l).
Proof.
  intros Hf. induction l as [|a l IH]; [done|].
  rewrite !fmap_cons, map_step_cons, Hf. binds. by rewrite IH.
Qed.

Lemma attempt_loop_first_call request :
  ∃ trace r, attempt_loop maxAttempts request 0 = Some (Call request :: trace, r).
Proof.
  simpl. destruct (generateContent 0 request); [eauto|].
  destruct (generateContent 1 request); [eauto|].
  destruct (generateContent 2 request); eauto.
Qed.

(** C9.  For a batch of tabs that is not empty, the prompt is the fixed
    template followed by one line [ID:<id> | <title> (<url>)] per tab, in the
    order of the batch and joined by newlines; building it never fails, it
    depends on nothing but the batch, and it is what the upstream is called
    with. *)
Theorem prompt_of_batch (batch : list Tab) body :
  batch ≠ [] →
  Get body (str "tabs") = Continue (VArr (tab_value <$> batch)) →
  let p := prompt (join [newline] (tab_line_text <$> batch)) in
  before_call body = Continue p
  ∧ ∃ trace r, group_tabs body = Some (Call (request p) :: trace, r).
Proof.
  intros Hne Hb p.
  assert (Hp : before_call body = Continue p).
  { rewrite (before_call_checked _ _ Hb).
    - rewrite Get_length_array. binds. simpl ToString. unfold tabText. binds.
      by rewrite (map_step_continue tab_line tab_value tab_line_text _ tab_line_tab).
    - apply check_tabs_nonempty. by destruct batch. }
  split; [exact Hp|].
  unfold group_tabs. rewrite Hp.
  destruct (attempt_loop_first_call (request p)) as (trace & r & ->). eauto.
Qed.
End Properties.

(** ** The regular expressions *)

Lemma strip_prefix_Some p s rest : strip_prefix p s = Some rest → s = p ++ rest.
Proof.
  revert s. induction p as [|a p IH]; intros [|b s]; simpl; try congruence.
  destruct (N.eqb_spec a b) as [->|]; [|done]. intros Hs. by rewrite (IH _ Hs).
Qed.

Lemma strip_prefix_app p rest : strip_prefix p (p ++ rest) = Some rest.
Proof. induction p as [|a p IH]; simpl; [done|]. by rewrite N.eqb_refl. Qed.

Module RegExpFacts.
Import RegExp.

Lemma run_star {A} c s cap (k : jsstring → option jsstring → option A) :
  run (Star c) s cap k =
    match s with
    | x :: s' =>
      if class_mem c x then
        match run (Star c) s' cap k with
        | Some y => Some y
        | None => k s cap
        end
      else k s cap
    | [] => k [] cap
    end.
Proof. by destruct s. Qed.

Lemma run_lazy {A} c s cap (k : jsstring → option jsstring → option A) :
  run (LazyStar c) s cap k =
    match k s cap with
    | Some y => Some y
    | None =>
      match s with
      | x :: s' => if class_mem c x then run (LazyStar c) s' cap k else None
      | [] => None
      end
    end.
Proof. by destruct s. Qed.

Lemma run_sound {A} r : ∀ s cap (k : jsstring → option jsstring → option A) x,
  run r s cap k = Some x →
  ∃ w s' cap', s = w ++ s' ∧ matches r w ∧ k s' cap' = Some x.
Proof.
  induction r as [l | a IHa b IHb | a IHa | c | c | a IHa]; intros s cap k x.
  - simpl. destruct (strip_prefix l s) as [rest|] eqn:Hl; [|done].
    intros Hk. apply strip_prefix_Some in Hl. exists l, rest, cap.
    split; [done|]. split; [constructor | done].
  - simpl. intros Hr.
    apply IHa in Hr as (u & s1 & cap1 & -> & Hu & Hr).
    apply IHb in Hr as (v & s2 & cap2 & -> & Hv & Hr).
    exists (u ++ v), s2, cap2. rewrite <- (assoc (++)).
    split; [done|]. split; [by constructor | done].
  - simpl. destruct (run a s cap k) as [y|] eqn:Ha.
    + intros [= ->]. apply IHa in Ha as (u & s1 & cap1 & -> & Hu & Hr).
      exists u, s1, cap1. split; [done|]. split; [by apply matches_opt_some | done].
    + intros Hk. exists [], s, cap. split; [done|]. split; [constructor | done].
  - induction s as [|c0 s IHs]; rewrite run_star.
    + intros Hk. exists [], [], cap. split; [done|]. split; [by constructor | done].
    + assert (Hstop : k (c0 :: s) cap = Some x →
                ∃ w s' cap', c0 :: s = w ++ s' ∧ matches (Star c) w ∧ k s' cap' = Some x).
      { intros Hk. exists [], (c0 :: s), cap. split; [done|]. split; [by constructor | done]. }
      destruct (class_mem c c0) eqn:Hc; [|done].
      destruct (run (Star c) s cap k) as [y|] eqn:Hr; [|done].
      intros [= ->]. destruct (IHs eq_refl) as (w & s' & cap' & -> & Hw & Hk).
      exists (c0 :: w), s', cap'. split; [done|]. split; [|done].
      inversion Hw; subst. constructor. by constructor.
  - induction s as [|c0 s IHs]; rewrite run_lazy.
    + destruct (k [] cap) as [y|] eqn:Hk; [|done].
      intros [= ->]. exists [], [], cap. split; [done|]. split; [by constructor | done].
    + destruct (k (c0 :: s) cap) as [y|] eqn:Hk.
      { intros [= ->]. exists [], (c0 :: s), cap. split; [done|]. split; [by constructor | done]. }
      destruct (class_mem c c0) eqn:Hc; [|done].
      intros Hr. destruct (IHs Hr) as (w & s' & cap' & -> & Hw & Hk').
      exists (c0 :: w), s', cap'. split; [done|]. split; [|done].
      inversion Hw; subst. constructor. by constructor.
  - simpl. intros Hr.
    apply IHa in Hr as (u & s1 & cap1 & -> & Hu & Hr).
    exists u, s1, (Some (take (length (u ++ s1) - length s1) (u ++ s1))).
    split; [done|]. split; [by constructor | done].
Qed.

Lemma match_at_sound r s m :
  match_at r s = Some m → ∃ w s', s = w ++ s' ∧ matches r w.
Proof.
  unfold match_at. intros Hr. apply run_sound in Hr as (w & s' & _ & -> & Hw & _). eauto.
Qed.

Lemma exec_sound r s m :
  exec r s = Some m → ∃ before w after, s = before ++ w ++ after ∧ matches r w.
Proof.
  induction s as [|c s IH]; simpl.
  - destruct (match_at r []) eqn:Hm; [|done]. intros _.
    apply match_at_sound in Hm as (w & s' & Hs & Hw). exists [], w, s'. eauto.
  - destruct (match_at r (c :: s)) eqn:Hm.
    + intros _. apply match_at_sound in Hm as (w & s' & Hs & Hw). exists [], w, s'. eauto.
    + intros Hr. destruct (IH Hr) as (b & w & a & -> & Hw).
      exists (c :: b), w, a. eauto.
Qed.

Lemma matches_fenced_brace w : matches re_fenced w → chr "{" ∈ w.
Proof.
  unfold re_fenced. intros Hw. inv_matches.
  rewrite !elem_of_app. right. right. right. left. left. by left.
Qed.

Lemma matches_braces_brace w : matches re_braces w → chr "{" ∈ w.
Proof.
  unfold re_braces. intros Hw. inv_matches.
  rewrite !elem_of_app. left. by left.
Qed.

Lemma jsonMatch_brace text m : jsonMatch text = Some m → chr "{" ∈ text.
Proof.
  unfold jsonMatch. destruct (exec re_fenced text) eqn:Hf.
  - intros _. apply exec_sound in Hf as (b & w & a & -> & Hw).
    apply matches_fenced_brace in Hw. rewrite !elem_of_app. auto.
  - intros Hb. apply exec_sound in Hb as (b & w & a & -> & Hw).
    apply matches_braces_brace in Hw. rewrite !elem_of_app. auto.
Qed.
End RegExpFacts.
Import RegExpFacts.

(** C6, as amended.  A text without braces is returned as the value it
    parses to when it is JSON by itself, and is answered with 500 "No valid
    JSON found in AI response" when it is not. *)
Theorem no_braces text :
  chr "{" ∉ text → chr "}" ∉ text →
  (∀ v, JSON.parse text = Some v → groups text = Continue v)
  ∧ (JSON.parse text = None →
     groups text =
       Return (res_status_json 500
                 (parse_error_body (str "No valid JSON found in AI response")
                    (take 500 text)))).
Proof.
  intros Ho _. unfold groups. split.
  - by intros v ->.
  - intros ->. destruct (jsonMatch text) as [m|] eqn:Hm; [|done].
    by apply jsonMatch_brace in Hm.
Qed.

(** ** [JSON.parse] *)

Module JSONFacts.
Import JSON.

(** *** What a parse consumes *)

Lemma qbn_app a b :
  quote_before_newline a = true → quote_before_newline (a ++ b) = true.
Proof.
  induction a as [|c a IH]; simpl; [done|].
  destruct (c =? dquote); [done|]. destruct (c =? newline); [done | exact IH].
Qed.

Lemma bq_app a b :
  backticks_quoted a = true → backticks_quoted b = true →
  backticks_quoted (a ++ b) = true.
Proof.
  induction a as [|c a IH]; simpl; [done|].
  intros [Hc Ha]%andb_prop Hb. rewrite (IH Ha Hb), andb_true_r.
  destruct (c =? backtick); [by apply qbn_app | done].
Qed.

Lemma bq_suffix a b : backticks_quoted (a ++ b) = true → backticks_quoted b = true.
Proof.
  induction a as [|c a IH]; simpl; [done|]. intros [_ Ha]%andb_prop. by apply IH.
Qed.

Lemma bq_plain a : backtick ∉ a → backticks_quoted a = true.
Proof.
  induction a as [|c a IH]; simpl; [done|].
  intros [Hc Ha]%not_elem_of_cons. rewrite (IH Ha), andb_true_r.
  destruct (N.eqb_spec c backtick); done.
Qed.

Lemma qbn_line b r : newline ∉ b → quote_before_newline (b ++ dquote :: r) = true.
Proof.
  induction b as [|c b IH]; simpl; [done|].
  intros [Hc Hb]%not_elem_of_cons.
  destruct (c =? dquote); [done|].
  destruct (N.eqb_spec c newline); [done | by apply IH].
Qed.

Lemma bq_line b : newline ∉ b → backticks_quoted (b ++ [dquote]) = true.
Proof.
  induction b as [|c b IH]; simpl; [done|].
  intros [Hc Hb]%not_elem_of_cons. rewrite (IH Hb), andb_true_r.
  destruct (c =? backtick); [by apply qbn_line | done].
Qed.

Lemma consumed_length s rest : consumed s rest → (length rest < length s)%nat.
Proof.
  intros (pre & -> & Hne & _). rewrite length_app.
  destruct pre; [done | simpl; lia].
Qed.

Lemma consumed_trans s s1 rest : consumed s s1 → consumed s1 rest → consumed s rest.
Proof.
  intros (p1 & -> & Hn1 & Hq1) (p2 & -> & Hn2 & Hq2).
  exists (p1 ++ p2). rewrite <- (assoc (++)). split; [done|]. split.
  - destruct p1; [done | discriminate].
  - by apply bq_app.
Qed.

Lemma consumed_char c r : c ≠ backtick → consumed (c :: r) r.
Proof.
  intros Hc. exists [c]. split; [done|]. split; [done|]. simpl.
  destruct (N.eqb_spec c backtick); done.
Qed.

Lemma ws_not_backtick c : ws c = true → c ≠ backtick.
Proof. intros Hw ->. discriminate. Qed.

Lemma skip_ws_spec s : ∃ w, s = w ++ skip_ws s ∧ backtick ∉ w.
Proof.
  induction s as [|c s (w & Hs & Hw)]; simpl.
  - exists []. split; [done | apply not_elem_of_nil].
  - destruct (ws c) eqn:Hc.
    + exists (c :: w). split; [by rewrite Hs at 1|].
      apply not_elem_of_cons. split; [|done]. intros <-. discriminate.
    + exists []. split; [done | apply not_elem_of_nil].
Qed.

Lemma length_skip_ws s : (length (skip_ws s) ≤ length s)%nat.
Proof.
  destruct (skip_ws_spec s) as (w & Hs & _). rewrite Hs at 2. rewrite length_app. lia.
Qed.

Lemma consumed_skip_ws s rest : consumed (skip_ws s) rest → consumed s rest.
Proof.
  destruct (skip_ws_spec s) as (w & Hs & Hw).
  intros (pre & Hp & Hne & Hq). exists (w ++ pre). split; [|split].
  - rewrite <- (assoc (++)), <- Hp. exact Hs.
  - destruct pre; [done|]. by destruct w.
  - apply bq_app; [by apply bq_plain | done].
Qed.

(** Once something is consumed, white space after it can go too. *)
Lemma consumed_then_ws s r rest : consumed s r → skip_ws r = rest → consumed s rest.
Proof.
  destruct (skip_ws_spec r) as (w & Hs & Hw).
  intros (pre & -> & Hne & Hq) <-. exists (pre ++ w). split; [|split].
  - rewrite <- (assoc (++)). by rewrite <- Hs.
  - by destruct pre.
  - apply bq_app; [done | by apply bq_plain].
Qed.

Lemma strip_prefix_consumed p s rest :
  p ≠ [] → backtick ∉ p → strip_prefix p s = Some rest → consumed s rest.
Proof.
  intros Hne Hp Hs. apply strip_prefix_Some in Hs as ->.
  exists p. split; [done|]. split; [done | by apply bq_plain].
Qed.

Lemma hex_val_not_newline h a : hex_val h = Some a → newline ≠ h.
Proof. intros Hh <-. discriminate. Qed.

Lemma parse_string_spec s t rest :
  parse_string s = Some (t, rest) → ∃ b, s = b ++ dquote :: rest ∧ newline ∉ b.
Proof.
  remember (length s) as n eqn:Hn. revert s t rest Hn.
  induction n as [n IH] using lt_wf_ind. intros s t rest Hn.
  destruct s as [|c r]; simpl; [done|].
  destruct (N.eqb_spec c dquote) as [->|Hq].
  { intros [= <- <-]. exists []. split; [done | apply not_elem_of_nil]. }
  destruct (N.eqb_spec c backslash) as [->|Hb].
  - destruct r as [|e r']; [done|].
    destruct (N.eqb_spec e (chr "u")) as [->|Hu].
    + destruct r' as [|h1 [|h2 [|h3 [|h4 r'']]]]; try done.
      destruct (hex_val h1) eqn:H1; [|done].
      destruct (hex_val h2) eqn:H2; [|done].
      destruct (hex_val h3) eqn:H3; [|done].
      destruct (hex_val h4) eqn:H4; [|done].
      destruct (parse_string r'') as [[t' rest']|] eqn:Hr; [|done].
      intros [= <- <-].
      destruct (IH (length r'') ltac:(simpl in Hn; lia) r'' t' rest' eq_refl Hr)
        as (b & -> & Hnl).
      exists (backslash :: chr "u" :: h1 :: h2 :: h3 :: h4 :: b). split; [done|].
      rewrite !not_elem_of_cons. repeat split; try done.
      all: by eapply hex_val_not_newline.
    + destruct (escape e) eqn:He; [|done].
      destruct (parse_string r') as [[t' rest']|] eqn:Hr; [|done].
      intros [= <- <-].
      destruct (IH (length r') ltac:(simpl in Hn; lia) r' t' rest' eq_refl Hr)
        as (b & -> & Hnl).
      exists (backslash :: e :: b). split; [done|].
      rewrite !not_elem_of_cons. repeat split; try done.
      intros <-. discriminate.
  - destruct (N.ltb_spec c 32) as [|Hc]; [done|].
    destruct (parse_string r) as [[t' rest']|] eqn:Hr; [|done].
    intros [= <- <-].
    destruct (IH (length r) ltac:(simpl in Hn; lia) r t' rest' eq_refl Hr)
      as (b & -> & Hnl).
    exists (c :: b). split; [done|].
    rewrite not_elem_of_cons. split; [|done]. intros <-. unfold newline in Hc. lia.
Qed.

(** A string literal with its opening quote. *)
Lemma parse_string_consumed r t rest :
  parse_string r = Some (t, rest) → consumed (dquote :: r) rest.
Proof.
  intros (b & -> & Hnl)%parse_string_spec.
  exists (dquote :: b ++ [dquote]). split; [|split].
  - simpl. by rewrite <- (assoc (++)).
  - done.
  - simpl. by apply bq_line.
Qed.

Lemma consumed_ws_char r c r' : skip_ws r = c :: r' → c ≠ backtick → consumed r r'.
Proof.
  intros Hs Hc. apply consumed_skip_ws. rewrite Hs. by apply consumed_char.
Qed.

Lemma digit_not_backtick c : digit c = true → backtick ≠ c.
Proof. intros Hd <-. discriminate. Qed.

Lemma digits_spec s : ∀ acc n k rest,
  digits acc s = (n, k, rest) →
  ∃ pre, s = pre ++ rest ∧ (backtick ∉ pre) ∧ length pre = k.
Proof.
  induction s as [|c s IH]; intros acc n k rest; simpl.
  - intros [= <- <- <-]. exists []. split; [done|]. split; [apply not_elem_of_nil | done].
  - destruct (digit c) eqn:Hd.
    + destruct (digits _ s) as [[n' k'] rest'] eqn:Hs.
      intros [= <- <- <-]. destruct (IH _ _ _ _ Hs) as (pre & -> & Hb & Hl).
      exists (c :: pre). split; [done|]. split; [|by rewrite <- Hl].
      apply not_elem_of_cons. split; [by apply digit_not_backtick | done].
    + intros [= <- <- <-]. exists []. split; [done|]. split; [apply not_elem_of_nil | done].
Qed.

Lemma parse_int_spec s i r :
  parse_int s = Some (i, r) → ∃ pre, s = pre ++ r ∧ pre ≠ [] ∧ backtick ∉ pre.
Proof.
  destruct s as [|c s]; [done|]. unfold parse_int.
  destruct (digit c) eqn:Hd; [|done].
  destruct (c =? 48).
  - intros [= <- <-]. exists [c]. split; [done|]. split; [done|].
    apply not_elem_of_cons. split; [by apply digit_not_backtick | apply not_elem_of_nil].
  - destruct (digits 0 (c :: s)) as [[n k] rest] eqn:Hs. intros [= <- <-].
    destruct (digits_spec _ _ _ _ _ Hs) as (pre & Hp & Hb & Hl).
    exists pre. split; [done|]. split; [|done].
    intros ->. simpl in Hs, Hl. rewrite Hd in Hs.
    destruct (digits _ s) as [[a b] d]. injection Hs as _ Hk _.
    rewrite <- Hk in Hl. discriminate.
Qed.

Lemma parse_frac_spec i s m k r :
  parse_frac i s = Some (m, k, r) → ∃ pre, s = pre ++ r ∧ backtick ∉ pre.
Proof.
  assert (Hnil : ∃ pre, s = pre ++ s ∧ backtick ∉ pre).
  { exists []. split; [done | apply not_elem_of_nil]. }
  unfold parse_frac.
  destruct s as [|d s]; [by intros [= <- <- <-]|].
  destruct (N.eqb_spec d (chr ".")) as [->|]; [|by intros [= <- <- <-]].
  destruct s as [|x s]; [done|]. destruct (digit x); [|done].
  intros Hs. apply (inj Some) in Hs.
  destruct (digits_spec _ _ _ _ _ Hs) as (pre & -> & Hb & _).
  exists (chr "." :: pre). split; [done|].
  apply not_elem_of_cons. split; [done | done].
Qed.

Lemma parse_exp_spec s e r :
  parse_exp s = Some (e, r) → ∃ pre, s = pre ++ r ∧ backtick ∉ pre.
Proof.
  assert (Hnil : ∃ pre, s = pre ++ s ∧ backtick ∉ pre).
  { exists []. split; [done | apply not_elem_of_nil]. }
  unfold parse_exp.
  destruct s as [|c s]; [by intros [= <- <-]|].
  destruct (_ || _) eqn:He; [|by intros [= <- <-]].
  assert (Hc : backtick ≠ c).
  { intros <-. discriminate. }
  assert (Hdig : ∀ r1, (match r1 with
                        | x :: _ =>
                          if digit x then
                            let '(ev, _, rest) := digits 0 r1 in
                            Some ((- Z.of_N ev)%Z, rest)
                          else None
                        | [] => None
                        end = Some (e, r)
                        ∨ match r1 with
                          | x :: _ =>
                            if digit x then
                              let '(ev, _, rest) := digits 0 r1 in
                              Some (Z.of_N ev, rest)
                            else None
                          | [] => None
                          end = Some (e, r)) →
                 ∃ pre, r1 = pre ++ r ∧ backtick ∉ pre).
  { intros r1 Hr. destruct r1 as [|x r1]; [by destruct Hr|].
    destruct (digit x); [|by destruct Hr].
    destruct (digits 0 (x :: r1)) as [[ev k] rest] eqn:Hs.
    destruct (digits_spec _ _ _ _ _ Hs) as (pre & Hp & Hb & _).
    exists pre. split; [|done]. by destruct Hr as [[= _ <-] | [= _ <-]]. }
  destruct s as [|sgn s].
  - done.
  - destruct (N.eqb_spec sgn (chr "-")) as [->|].
    { intros Hr. destruct (Hdig s (or_introl Hr)) as (pre & -> & Hb).
      exists (c :: chr "-" :: pre). split; [done|].
      rewrite !not_elem_of_cons. done. }
    destruct (N.eqb_spec sgn (chr "+")) as [->|].
    { intros Hr. destruct (Hdig s (or_intror Hr)) as (pre & -> & Hb).
      exists (c :: chr "+" :: pre). split; [done|].
      rewrite !not_elem_of_cons. done. }
    intros Hr. destruct (Hdig (sgn :: s) (or_intror Hr)) as (pre & -> & Hb).
    exists (c :: pre). split; [done|]. rewrite !not_elem_of_cons. done.
Qed.

Lemma parse_number_consumed s q rest :
  parse_number s = Some (q, rest) → consumed s rest.
Proof.
  unfold parse_number.
  assert (Hgo : ∀ neg s1,
    match parse_int s1 with
    | Some (i, r1) =>
      match parse_frac i r1 with
      | Some (m, k, r2) =>
        match parse_exp r2 with
        | Some (e, rest) => Some (decimal neg m (e - Z.of_nat k), rest)
        | None => None
        end
      | None => None
      end
    | None => None
    end = Some (q, rest) → consumed s1 rest).
  { intros neg s1.
    destruct (parse_int s1) as [[i r1]|] eqn:Hi; [|done].
    destruct (parse_frac i r1) as [[[m k] r2]|] eqn:Hf; [|done].
    destruct (parse_exp r2) as [[e rest']|] eqn:He; [|done].
    intros [= _ <-].
    apply parse_int_spec in Hi as (p1 & -> & Hne & Hb1).
    apply parse_frac_spec in Hf as (p2 & -> & Hb2).
    apply parse_exp_spec in He as (p3 & -> & Hb3).
    exists (p1 ++ p2 ++ p3). split; [|split].
    - by rewrite <- !(assoc (++)).
    - by destruct p1.
    - apply bq_plain. rewrite !not_elem_of_app. done. }
  destruct s as [|c s]; [apply Hgo|].
  destruct (N.eqb_spec c (chr "-")) as [->|]; [|apply Hgo].
  intros Hr. apply Hgo in Hr.
  eapply consumed_trans; [|exact Hr]. by apply consumed_char.
Qed.

Lemma parse_consumed fuel :
  (∀ s v rest, parse_value fuel s = Some (v, rest) → consumed s rest)
  ∧ (∀ s vs rest, parse_elements fuel s = Some (vs, rest) → consumed s rest)
  ∧ (∀ s kvs rest, parse_members fuel s = Some (kvs, rest) → consumed s rest).
Proof.
  induction fuel as [|fuel (IHv & IHe & IHm)]; [done|].
  split; [|split].
  - intros s v rest. cbn [parse_value].
    destruct (skip_ws s) as [|c r] eqn:Hs; [done|].
    intros Hp. apply consumed_skip_ws. rewrite Hs. revert Hp.
    destruct (N.eqb_spec c (chr "{")) as [->|Hc1].
    { destruct (skip_ws r) as [|c' r'] eqn:Hr; [done|].
      destruct (N.eqb_spec c' (chr "}")) as [->|].
      - intros [= <- <-]. eapply consumed_trans; [by apply consumed_char|].
        by eapply consumed_ws_char.
      - destruct (parse_members fuel r) as [[kvs rest']|] eqn:Hm; [|done].
        intros [= <- <-]. eapply consumed_trans; [by apply consumed_char|].
        by eapply IHm. }
    destruct (N.eqb_spec c (chr "[")) as [->|Hc2].
    { destruct (skip_ws r) as [|c' r'] eqn:Hr; [done|].
      destruct (N.eqb_spec c' (chr "]")) as [->|].
      - intros [= <- <-]. eapply consumed_trans; [by apply consumed_char|].
        by eapply consumed_ws_char.
      - destruct (parse_elements fuel r) as [[vs rest']|] eqn:Hm; [|done].
        intros [= <- <-]. eapply consumed_trans; [by apply consumed_char|].
        by eapply IHe. }
    destruct (N.eqb_spec c dquote) as [->|Hc3].
    { destruct (parse_string r) as [[t rest']|] eqn:Ht; [|done].
      intros [= <- <-]. by eapply parse_string_consumed. }
    destruct (strip_prefix (str "true") (c :: r)) eqn:H1.
    { intros [= <- <-]. eapply strip_prefix_consumed; [..|exact H1]; by_compute. }
    destruct (strip_prefix (str "false") (c :: r)) eqn:H2.
    { intros [= <- <-]. eapply strip_prefix_consumed; [..|exact H2]; by_compute. }
    destruct (strip_prefix (str "null") (c :: r)) eqn:H3.
    { intros [= <- <-]. eapply strip_prefix_consumed; [..|exact H3]; by_compute. }
    destruct (parse_number (c :: r)) as [[q rest']|] eqn:H4; [|done].
    intros [= <- <-]. by eapply parse_number_consumed.
  - intros s vs rest. cbn [parse_elements].
    destruct (parse_value fuel s) as [[v r]|] eqn:Hv; [|done].
    apply IHv in Hv.
    destruct (skip_ws r) as [|c r'] eqn:Hr; [done|].
    destruct (N.eqb_spec c (chr ",")) as [->|].
    { destruct (parse_elements fuel r') as [[vs' rest']|] eqn:He; [|done].
      intros [= <- <-]. eapply consumed_trans; [exact Hv|].
      eapply consumed_trans; [by eapply consumed_ws_char | by eapply IHe]. }
    destruct (N.eqb_spec c (chr "]")) as [->|]; [|done].
    intros [= <- <-]. eapply consumed_trans; [exact Hv|]. by eapply consumed_ws_char.
  - intros s kvs rest. cbn [parse_members].
    destruct (skip_ws s) as [|c r] eqn:Hs; [done|].
    intros Hp. apply consumed_skip_ws. rewrite Hs. revert Hp.
    destruct (N.eqb_spec c dquote) as [->|]; [|done].
    destruct (parse_string r) as [[k r1]|] eqn:Hk; [|done].
    apply parse_string_consumed in Hk.
    destruct (skip_ws r1) as [|c1 r2] eqn:H1; [done|].
    destruct (N.eqb_spec c1 (chr ":")) as [->|]; [|done].
    destruct (parse_value fuel r2) as [[v r3]|] eqn:Hv; [|done].
    apply IHv in Hv.
    destruct (skip_ws r3) as [|c3 r4] eqn:H3; [done|].
    assert (Hto : consumed (dquote :: r) r3).
    { eapply consumed_trans; [exact Hk|].
      eapply consumed_trans; [by eapply consumed_ws_char | exact Hv]. }
    destruct (N.eqb_spec c3 (chr ",")) as [->|].
    { destruct (parse_members fuel r4) as [[kvs' rest']|] eqn:Hm; [|done].
      intros [= <- <-]. eapply consumed_trans; [exact Hto|].
      eapply consumed_trans; [by eapply consumed_ws_char | by eapply IHm]. }
    destruct (N.eqb_spec c3 (chr "}")) as [->|]; [|done].
    intros [= <- <-]. eapply consumed_trans; [exact Hto|]. by eapply consumed_ws_char.
Qed.

(** *** Fuel *)

Lemma skip_ws_cons_length s c r : skip_ws s = c :: r → (length r < length s)%nat.
Proof.
  intros Hs. pose proof (length_skip_ws s) as Hl. rewrite Hs in Hl. simpl in Hl. lia.
Qed.

Lemma parse_value_length fuel s v rest :
  parse_value fuel s = Some (v, rest) → (length rest < length s)%nat.
Proof. intros Hp. apply consumed_length. by eapply (proj1 (parse_consumed fuel)). Qed.

Lemma parse_elements_length fuel s vs rest :
  parse_elements fuel s = Some (vs, rest) → (length rest < length s)%nat.
Proof.
  intros Hp. apply consumed_length. by eapply (proj1 (proj2 (parse_consumed fuel))).
Qed.

Lemma parse_members_length fuel s kvs rest :
  parse_members fuel s = Some (kvs, rest) → (length rest < length s)%nat.
Proof.
  intros Hp. apply consumed_length. by eapply (proj2 (proj2 (parse_consumed fuel))).
Qed.

Lemma parse_string_length r t rest :
  parse_string r = Some (t, rest) → (length rest < length r)%nat.
Proof.
  intros (b & -> & _)%parse_string_spec. rewrite length_app. simpl. lia.
Qed.

(** A parse that came to its end with some fuel comes to the same end with
    any fuel that is at least the number of characters it read. *)
Lemma parse_fuel fuel :
  (∀ s v rest, parse_value fuel s = Some (v, rest) →
     ∀ fuel', (length s - length rest ≤ fuel')%nat →
       parse_value fuel' s = Some (v, rest))
  ∧ (∀ s vs rest, parse_elements fuel s = Some (vs, rest) →
       ∀ fuel', (length s - length rest ≤ fuel')%nat →
         parse_elements fuel' s = Some (vs, rest))
  ∧ (∀ s kvs rest, parse_members fuel s = Some (kvs, rest) →
       ∀ fuel', (length s - length rest ≤ fuel')%nat →
         parse_members fuel' s = Some (kvs, rest)).
Proof.
  induction fuel as [|fuel (IHv & IHe & IHm)]; [done|].
  split; [|split].
  - intros s v rest Hp fuel' Hf.
    pose proof (parse_value_length _ _ _ _ Hp) as Hlen.
    destruct fuel' as [|fuel']; [lia|].
    revert Hp. cbn [parse_value].
    destruct (skip_ws s) as [|c r] eqn:Hs; [done|].
    apply skip_ws_cons_length in Hs.
    destruct (c =? chr "{").
    { destruct (skip_ws r) as [|c' r'] eqn:Hr; [done|].
      destruct (c' =? chr "}"); [done|].
      destruct (parse_members fuel r) as [[kvs rest']|] eqn:Hm; [|done].
      intros [= <- <-]. rewrite (IHm _ _ _ Hm); [done | lia]. }
    destruct (c =? chr "[").
    { destruct (skip_ws r) as [|c' r'] eqn:Hr; [done|].
      destruct (c' =? chr "]"); [done|].
      destruct (parse_elements fuel r) as [[vs rest']|] eqn:Hm; [|done].
      intros [= <- <-]. rewrite (IHe _ _ _ Hm); [done | lia]. }
    done.
  - intros s vs rest Hp fuel' Hf.
    pose proof (parse_elements_length _ _ _ _ Hp) as Hlen.
    destruct fuel' as [|fuel']; [lia|].
    revert Hp. cbn [parse_elements].
    destruct (parse_value fuel s) as [[v r]|] eqn:Hv; [|done].
    pose proof (parse_value_length _ _ _ _ Hv) as Hvl.
    destruct (skip_ws r) as [|c r'] eqn:Hr; [done|].
    pose proof (skip_ws_cons_length _ _ _ Hr) as Hrl.
    destruct (N.eqb_spec c (chr ",")) as [->|].
    { destruct (parse_elements fuel r') as [[vs' rest']|] eqn:He; [|done].
      pose proof (parse_elements_length _ _ _ _ He) as Hel.
      intros [= <- <-].
      rewrite (IHv _ _ _ Hv) by lia. rewrite Hr. cbn.
      rewrite (IHe _ _ _ He) by lia. done. }
    destruct (N.eqb_spec c (chr "]")) as [->|]; [|done].
    intros [= <- <-]. rewrite (IHv _ _ _ Hv) by lia. by rewrite Hr.
  - intros s kvs rest Hp fuel' Hf.
    pose proof (parse_members_length _ _ _ _ Hp) as Hlen.
    destruct fuel' as [|fuel']; [lia|].
    revert Hp. cbn [parse_members].
    destruct (skip_ws s) as [|c r] eqn:Hs; [done|].
    apply skip_ws_cons_length in Hs.
    destruct (c =? dquote); [|done].
    destruct (parse_string r) as [[k r1]|] eqn:Hk; [|done].
    apply parse_string_length in Hk.
    destruct (skip_ws r1) as [|c1 r2] eqn:H1; [done|].
    apply skip_ws_cons_length in H1.
    destruct (c1 =? chr ":"); [|done].
    destruct (parse_value fuel r2) as [[v r3]|] eqn:Hv; [|done].
    pose proof (parse_value_length _ _ _ _ Hv) as Hvl.
    destruct (skip_ws r3) as [|c3 r4] eqn:H3; [done|].
    pose proof (skip_ws_cons_length _ _ _ H3) as H3l.
    destruct (N.eqb_spec c3 (chr ",")) as [->|].
    { destruct (parse_members fuel r4) as [[kvs' rest']|] eqn:Hm; [|done].
      pose proof (parse_members_length _ _ _ _ Hm) as Hml.
      intros [= <- <-].
      rewrite (IHv _ _ _ Hv) by lia. rewrite H3. cbn.
      rewrite (IHm _ _ _ Hm) by lia. done. }
    destruct (N.eqb_spec c3 (chr "}")) as [->|]; [|done].
    intros [= <- <-]. rewrite (IHv _ _ _ Hv) by lia. by rewrite H3.
Qed.

(** The length of a text is fuel enough to parse it. *)
Theorem parse_value_fuel fuel s v rest :
  parse_value fuel s = Some (v, rest) → parse_value (length s) s = Some (v, rest).
Proof.
  intros Hp. eapply (proj1 (parse_fuel fuel)); [exact Hp | lia].
Qed.

(** [JSON.parse] by a parse with any fuel. *)
Lemma parse_by_fuel fuel s v rest :
  parse_value fuel s = Some (v, rest) → skip_ws rest = [] → parse s = Some v.
Proof.
  intros Hp Hr. unfold parse. by rewrite (parse_value_fuel _ _ _ _ Hp), Hr.
Qed.

(** The text of a value holds no backtick outside of a string literal. *)
Lemma parse_backticks_quoted s v : parse s = Some v → backticks_quoted s = true.
Proof.
  unfold parse. destruct (parse_value (length s) s) as [[v' rest]|] eqn:Hp; [|done].
  destruct (skip_ws rest) as [|c r] eqn:Hr; [|done]. intros _.
  apply (proj1 (parse_consumed _)) in Hp as (pre & -> & _ & Hq).
  destruct (skip_ws_spec rest) as (w & Hw & Hb). rewrite Hr, app_nil_r in Hw. subst w.
  apply bq_app; [done | by apply bq_plain].
Qed.
End JSONFacts.

(** ** The text of a mapping *)

Module JSONText.
Import JSON JSONFacts.

(** *** Strings *)

Lemma parse_string_char c s :
  c ≠ dquote → c ≠ backslash → 32 ≤ c →
  parse_string (c :: s) =
    match parse_string s with
    | Some (t, rest) => Some (c :: t, rest)
    | None => None
    end.
Proof.
  intros Hq Hb Hc. cbn [parse_string].
  destruct (N.eqb_spec c dquote); [done|].
  destruct (N.eqb_spec c backslash); [done|].
  destruct (N.ltb_spec c 32); [lia | done].
Qed.

Lemma parse_string_quote_char c s :
  parse_string (quote_char c ++ s) =
    match parse_string s with
    | Some (t, rest) => Some (c :: t, rest)
    | None => None
    end.
Proof.
  destruct (N.ltb_spec c 32) as [Hc|Hc].
  - destruct c as [|p]; [reflexivity|].
    do 5 (destruct p as [p|p|]; try reflexivity); lia.
  - unfold quote_char.
    destruct (N.eqb_spec c dquote) as [->|]; [reflexivity|].
    destruct (N.eqb_spec c backslash) as [->|]; [reflexivity|].
    destruct (N.eqb_spec c 8); [lia|]. destruct (N.eqb_spec c 9); [lia|].
    destruct (N.eqb_spec c 10); [lia|]. destruct (N.eqb_spec c 12); [lia|].
    destruct (N.eqb_spec c 13); [lia|]. destruct (N.ltb_spec c 32); [lia|].
    by apply parse_string_char.
Qed.

Lemma parse_string_quote_body k rest :
  parse_string (quote_body k ++ dquote :: rest) = Some (k, rest).
Proof.
  induction k as [|c k IH]; [reflexivity|].
  unfold quote_body in *. rewrite bind_cons, <- (assoc (++)).
  by rewrite parse_string_quote_char, IH.
Qed.

(** *** Integers *)

Lemma uint_val_pos d : ∀ a, uint_val d (Npos a) = Npos (Pos.of_uint_acc d a).
Proof. induction d as [|d IH|d IH|d IH|d IH|d IH|d IH|d IH|d IH|d IH|d IH]; intros a; simpl; [done|..]; rewrite <- IH; f_equal; lia. Qed.

Lemma uint_val_0 d : uint_val d 0 = Pos.of_uint d.
Proof.
  induction d as [|d IH|d IH|d IH|d IH|d IH|d IH|d IH|d IH|d IH|d IH]; simpl;
    [done | exact IH | apply uint_val_pos ..].
Qed.

Lemma uint_val_to_uint p : uint_val (Pos.to_uint p) 0 = Npos p.
Proof. rewrite uint_val_0. apply DecimalPos.Unsigned.of_to. Qed.

Lemma digits_uint_chars d : ∀ acc rest,
  match rest with c :: _ => digit c = false | [] => True end →
  digits acc (uint_chars d ++ rest) = (uint_val d acc, length (uint_chars d), rest).
Proof.
  induction d as [|d IH|d IH|d IH|d IH|d IH|d IH|d IH|d IH|d IH|d IH];
    intros acc rest Hr.
  { simpl. destruct rest as [|c rest]; [done|]. simpl. by rewrite Hr. }
  all: cbn [uint_chars uint_val app length digits];
    match goal with
    | |- context [digit_char ?k] =>
      change (digit (digit_char k)) with true;
      change (digit_char k - 48) with k
    end;
    cbv iota; by rewrite (IH _ _ Hr).
Qed.

(** The numeral of a positive number starts with a digit that is not 0. *)
Lemma to_uint_head p :
  ∃ c t, uint_chars (Pos.to_uint p) = c :: t ∧ digit c = true ∧ c ≠ 48.
Proof.
  assert (Hn : Decimal.unorm (Pos.to_uint p) = Pos.to_uint p).
  { rewrite <- DecimalPos.Unsigned.to_of, DecimalPos.Unsigned.of_to. reflexivity. }
  pose proof (DecimalPos.Unsigned.to_uint_nonzero p) as Hz.
  destruct (Pos.to_uint p) as [|d|d|d|d|d|d|d|d|d|d] eqn:Hp;
    try (eexists _, _; split; [reflexivity|]; split; [reflexivity | discriminate]).
  - by destruct (DecimalPos.Unsigned.to_uint_nonnil p).
  - exfalso. rewrite unorm_D0 in Hn. unfold Decimal.unorm in Hn.
    pose proof (nzhead_nonzero d d) as Hh.
    destruct (Decimal.nzhead d) eqn:Hd; done.
Qed.

Lemma Qred_inject_Z z : Qred (inject_Z z) = inject_Z z.
Proof. apply Qred_identity. simpl. apply Z.gcd_1_r. Qed.

Lemma decimal_int neg m :
  decimal neg m (0 - Z.of_nat 0) = inject_Z (if neg then - Z.of_N m else Z.of_N m).
Proof.
  unfold decimal. simpl. rewrite Z.mul_1_r. apply Qred_inject_Z.
Qed.

(** What may follow a number in the texts below: a comma or a bracket. *)
Lemma parse_frac_end i c r :
  c = chr "," ∨ c = chr "]" → parse_frac i (c :: r) = Some (i, O, c :: r).
Proof. by intros [-> | ->]. Qed.

Lemma parse_exp_end c r :
  c = chr "," ∨ c = chr "]" → parse_exp (c :: r) = Some (0%Z, c :: r).
Proof. by intros [-> | ->]. Qed.

Lemma parse_int_pos p c r :
  c = chr "," ∨ c = chr "]" →
  parse_int (uint_chars (Pos.to_uint p) ++ c :: r) = Some (Npos p, c :: r).
Proof.
  intros Hc. destruct (to_uint_head p) as (c0 & t & Ht & Hd & Hz).
  pose proof (digits_uint_chars (Pos.to_uint p) 0 (c :: r)) as Hg.
  rewrite uint_val_to_uint in Hg. rewrite Ht in *.
  unfold parse_int. cbn [app]. rewrite Hd.
  destruct (N.eqb_spec c0 48); [done|].
  cbn [app] in Hg. rewrite Hg; [done|]. by destruct Hc as [-> | ->].
Qed.

Lemma parse_number_int z c r :
  c = chr "," ∨ c = chr "]" →
  parse_number (Z_decimal z ++ c :: r) = Some (inject_Z z, c :: r).
Proof.
  intros Hc. destruct z as [|p|p]; unfold Z_decimal, N_decimal, N.to_uint.
  - unfold parse_number. cbn [app uint_chars].
    change (digit_char 0 =? chr "-") with false. cbv iota.
    change (parse_int (digit_char 0 :: c :: r)) with (Some (0, c :: r)).
    cbv iota beta. rewrite (parse_frac_end _ _ _ Hc). cbv iota beta.
    rewrite (parse_exp_end _ _ Hc). cbv iota beta. by rewrite decimal_int.
  - destruct (to_uint_head p) as (c0 & t & Ht & Hd & Hz).
    pose proof (parse_int_pos p c r Hc) as Hi. rewrite Ht in *.
    unfold parse_number. cbn [app] in *.
    assert ((c0 =? chr "-") = false) as ->.
    { apply N.eqb_neq. intros ->. discriminate. }
    rewrite Hi. cbv iota beta. rewrite (parse_frac_end _ _ _ Hc). cbv iota beta.
    rewrite (parse_exp_end _ _ Hc). cbv iota beta. by rewrite decimal_int.
  - unfold parse_number. cbn [app].
    change (chr "-" =? chr "-") with true. cbv iota.
    rewrite (parse_int_pos p c r Hc). cbv iota beta.
    rewrite (parse_frac_end _ _ _ Hc). cbv iota beta.
    rewrite (parse_exp_end _ _ Hc). cbv iota beta. by rewrite decimal_int.
Qed.

(** A numeral starts with a digit or a minus sign. *)
Lemma Z_decimal_head z :
  ∃ c t, Z_decimal z = c :: t ∧ (digit c = true ∨ c = chr "-").
Proof.
  destruct z as [|p|p]; unfold Z_decimal, N_decimal, N.to_uint.
  - eexists _, _. split; [reflexivity | by left].
  - destruct (to_uint_head p) as (c0 & t & Ht & Hd & _). rewrite Ht. eauto.
  - eexists _, _. split; [reflexivity | by right].
Qed.

(** What [parse_value] does with a text that starts like a number. *)
Lemma parse_value_number fuel c s :
  digit c = true ∨ c = chr "-" →
  parse_value (S fuel) (c :: s) =
    match parse_number (c :: s) with
    | Some (q, rest) => Some (VNum q, rest)
    | None => None
    end.
Proof.
  intros Hc.
  assert (Hcases : c = chr "-" ∨ (48 ≤ c ∧ c ≤ 57)).
  { destruct Hc as [Hd | ->]; [right | by left].
    unfold digit in Hd. apply andb_prop in Hd as [H1 H2].
    apply N.leb_le in H1, H2. done. }
  assert (Hws : ws c = false).
  { unfold ws. destruct Hcases as [-> | [? ?]]; [reflexivity|].
    repeat (apply orb_false_intro); apply N.eqb_neq; lia. }
  cbn [parse_value skip_ws]. rewrite Hws.
  assert (Hne : ∀ x, x < 45 ∨ (45 < x ∧ x < 48) ∨ 57 < x → (c =? x) = false).
  { intros x Hx. apply N.eqb_neq. destruct Hcases as [-> | [? ?]]; [|lia].
    change (chr "-") with 45. lia. }
  literals. unfold dquote.
  rewrite !Hne by lia. cbn [strip_prefix].
  rewrite (N.eqb_sym 116 c), (N.eqb_sym 102 c), (N.eqb_sym 110 c), !Hne by lia.
  done.
Qed.

Lemma parse_value_int fuel z c r :
  c = chr "," ∨ c = chr "]" →
  parse_value (S fuel) (Z_decimal z ++ c :: r) = Some (VInt z, c :: r).
Proof.
  intros Hc. destruct (Z_decimal_head z) as (c0 & t & Ht & Hh).
  pose proof (parse_number_int z c r Hc) as Hn. rewrite Ht in *. cbn [app] in *.
  by rewrite (parse_value_number _ _ _ Hh), Hn.
Qed.

(** *** Arrays of integers, members, objects *)

Lemma skip_ws_head c r : ws c = false → skip_ws (c :: r) = c :: r.
Proof. intros Hc. simpl. by rewrite Hc. Qed.

Lemma number_head_not_ws c : digit c = true ∨ c = chr "-" → ws c = false.
Proof.
  intros [Hd | ->]; [|reflexivity].
  unfold digit in Hd. apply andb_prop in Hd as [H1 H2]. apply N.leb_le in H1, H2.
  unfold ws. repeat (apply orb_false_intro); apply N.eqb_neq; lia.
Qed.

Lemma number_head_not_bracket c : digit c = true ∨ c = chr "-" → (c =? chr "]") = false.
Proof.
  intros [Hd | ->]; [|reflexivity].
  unfold digit in Hd. apply andb_prop in Hd as [H1 H2]. apply N.leb_le in H1, H2.
  apply N.eqb_neq. change (chr "]") with 93. lia.
Qed.

Lemma parse_elements_S fuel s :
  parse_elements (S fuel) s =
    match parse_value fuel s with
    | Some (v, r) =>
      match skip_ws r with
      | c :: r' =>
        if c =? chr "," then
          match parse_elements fuel r' with
          | Some (vs, rest) => Some (v :: vs, rest)
          | None => None
          end
        else if c =? chr "]" then Some ([v], r')
        else None
      | [] => None
      end
    | None => None
    end.
Proof. reflexivity. Qed.

Lemma parse_elements_ids ids : ∀ rest,
  ids ≠ [] →
  parse_elements (S (length ids)) (join [chr ","] (Z_decimal <$> ids) ++ chr "]" :: rest)
  = Some (VInt <$> ids, rest).
Proof.
  induction ids as [|z ids IH]; intros rest Hne; [done|].
  destruct ids as [|z' ids].
  - cbn [fmap list_fmap join length]. rewrite parse_elements_S.
    rewrite parse_value_int by (by right). by cbn.
  - remember (z' :: ids) as tl eqn:Htl.
    assert (Hj : join [chr ","] (Z_decimal <$> z :: tl)
                 = Z_decimal z ++ chr "," :: join [chr ","] (Z_decimal <$> tl))
      by (by subst).
    rewrite Hj, <- (assoc (++)). cbn [length]. rewrite parse_elements_S.
    rewrite <- app_comm_cons.
    rewrite parse_value_int by (by left). cbn [skip_ws].
    change (ws (chr ",")) with false. cbv iota.
    change (chr "," =? chr ",") with true. cbv iota.
    rewrite (IH rest); [done | by subst].
Qed.

Lemma ids_text_app ids rest :
  ids_text ids ++ rest
  = chr "[" :: (join [chr ","] (Z_decimal <$> ids) ++ chr "]" :: rest).
Proof. unfold ids_text. by rewrite <- app_comm_cons, <- (assoc (++)). Qed.

Lemma parse_value_ids fuel ids rest :
  (length (ids_text ids ++ rest) ≤ fuel)%nat →
  parse_value fuel (ids_text ids ++ rest) = Some (VArr (VInt <$> ids), rest).
Proof.
  rewrite ids_text_app. intros Hf.
  destruct fuel as [|fuel]; [simpl in Hf; lia|].
  cbn [parse_value skip_ws]. change (ws (chr "[")) with false. cbv iota.
  change (chr "[" =? chr "{") with false. change (chr "[" =? chr "[") with true.
  cbv iota.
  destruct ids as [|z ids].
  - by cbn.
  - pose proof (parse_elements_ids (z :: ids) rest ltac:(done)) as He.
    destruct (Z_decimal_head z) as (c0 & t & Ht & Hh).
    assert (Hs : ∃ u, join [chr ","] (Z_decimal <$> z :: ids) ++ chr "]" :: rest = c0 :: u).
    { destruct ids; cbn [fmap list_fmap join]; rewrite Ht; eauto. }
    destruct Hs as [u Hu]. rewrite Hu in *.
    rewrite (skip_ws_head _ _ (number_head_not_ws _ Hh)).
    rewrite (number_head_not_bracket _ Hh).
    rewrite (proj1 (proj2 (parse_fuel _)) _ _ _ He); [done|].
    cbn [length] in *. lia.
Qed.

Lemma parse_members_S fuel s :
  parse_members (S fuel) s =
    match skip_ws s with
    | c :: r =>
      if c =? dquote then
        match parse_string r with
        | Some (k, r1) =>
          match skip_ws r1 with
          | c1 :: r2 =>
            if c1 =? chr ":" then
              match parse_value fuel r2 with
              | Some (v, r3) =>
                match skip_ws r3 with
                | c3 :: r4 =>
                  if c3 =? chr "," then
                    match parse_members fuel r4 with
                    | Some (kvs, rest) => Some ((k, v) :: kvs, rest)
                    | None => None
                    end
                  else if c3 =? chr "}" then Some ([(k, v)], r4)
                  else None
                | [] => None
                end
              | None => None
              end
            else None
          | [] => None
          end
        | None => None
        end
      else None
    | [] => None
    end.
Proof. reflexivity. Qed.

Lemma member_text_app kv rest :
  member_text kv ++ rest
  = dquote :: (quote_body kv.1 ++ dquote :: chr ":" :: (ids_text kv.2 ++ rest)).
Proof.
  unfold member_text, quote.
  by rewrite <- !app_comm_cons, <- !(assoc (++)), <- !app_comm_cons.
Qed.

(** One member, with what follows it held in [after]. *)
Lemma parse_member fuel kv after :
  (length (member_text kv ++ after) ≤ fuel)%nat →
  parse_members (S fuel) (member_text kv ++ after) =
    match skip_ws after with
    | c3 :: r4 =>
      if c3 =? chr "," then
        match parse_members fuel r4 with
        | Some (kvs, rest) => Some ((kv.1, VArr (VInt <$> kv.2)) :: kvs, rest)
        | None => None
        end
      else if c3 =? chr "}" then Some ([(kv.1, VArr (VInt <$> kv.2))], r4)
      else None
    | [] => None
    end.
Proof.
  rewrite member_text_app. intros Hf. rewrite parse_members_S.
  cbn [skip_ws]. change (ws dquote) with false. cbv iota.
  change (dquote =? dquote) with true. cbv iota.
  rewrite parse_string_quote_body. cbn [skip_ws].
  change (ws (chr ":")) with false. cbv iota.
  change (chr ":" =? chr ":") with true. cbv iota.
  rewrite parse_value_ids; [done|].
  cbn [length] in Hf. rewrite !length_app in *. cbn [length] in Hf.
  rewrite !length_app in Hf. lia.
Qed.

Lemma parse_members_kvs kvs : ∀ rest,
  kvs ≠ [] →
  parse_members (S (length (join [chr ","] (member_text <$> kvs) ++ chr "}" :: rest)))
    (join [chr ","] (member_text <$> kvs) ++ chr "}" :: rest)
  = Some (prod_map id (λ ids, VArr (VInt <$> ids)) <$> kvs, rest).
Proof.
  induction kvs as [|kv kvs IH]; intros rest Hne; [done|].
  destruct kvs as [|kv' kvs].
  - cbn [fmap list_fmap join]. rewrite parse_member by done.
    cbn [skip_ws]. change (ws (chr "}")) with false. by cbv iota.
  - remember (kv' :: kvs) as tl eqn:Htl.
    assert (Hj : join [chr ","] (member_text <$> kv :: tl)
                 = member_text kv ++ chr "," :: join [chr ","] (member_text <$> tl))
      by (by subst).
    rewrite Hj, <- (assoc (++)), <- app_comm_cons.
    rewrite parse_member by done.
    cbn [skip_ws]. change (ws (chr ",")) with false. cbv iota.
    change (chr "," =? chr ",") with true. cbv iota.
    rewrite (proj2 (proj2 (parse_fuel _)) _ _ _ (IH rest ltac:(by subst))); [done|].
    rewrite !length_app. cbn [length]. rewrite !length_app. cbn [length]. lia.
Qed.

Lemma members_text_app kvs rest :
  members_text kvs ++ rest
  = chr "{" :: (join [chr ","] (member_text <$> kvs) ++ chr "}" :: rest).
Proof. unfold members_text. by rewrite <- app_comm_cons, <- (assoc (++)). Qed.

Lemma parse_value_members fuel kvs rest :
  (length (members_text kvs ++ rest) ≤ fuel)%nat →
  parse_value fuel (members_text kvs ++ rest)
  = Some (VObj (list_to_map (reverse (prod_map id (λ ids, VArr (VInt <$> ids)) <$> kvs))),
          rest).
Proof.
  rewrite members_text_app. intros Hf.
  destruct fuel as [|fuel]; [simpl in Hf; lia|].
  cbn [parse_value skip_ws]. change (ws (chr "{")) with false. cbv iota.
  change (chr "{" =? chr "{") with true. cbv iota.
  destruct kvs as [|kv kvs].
  - by cbn.
  - pose proof (parse_members_kvs (kv :: kvs) rest ltac:(done)) as Hm.
    assert (Hs : ∃ u, join [chr ","] (member_text <$> kv :: kvs) ++ chr "}" :: rest
                      = dquote :: u).
    { destruct kvs; cbn [fmap list_fmap join]; rewrite ?member_text_app;
        rewrite <- ?(assoc (++)); rewrite ?member_text_app; eauto. }
    destruct Hs as [u Hu]. rewrite Hu in *.
    cbn [skip_ws]. change (ws dquote) with false. cbv iota.
    change (dquote =? chr "}") with false. cbv iota.
    rewrite (proj2 (proj2 (parse_fuel _)) _ _ _ Hm); [done|].
    cbn [length] in *. lia.
Qed.

(** The text of a mapping parses to the mapping. *)
Theorem parse_mapping_text (M : gmap jsstring (list Z)) :
  parse (mapping_text M) = Some (mapping_value M).
Proof.
  unfold mapping_text.
  pose proof (parse_value_members (length (members_text (map_to_list M)))
                (map_to_list M) []) as Hp.
  rewrite app_nil_r in Hp. unfold parse. rewrite Hp by done. cbn [skip_ws].
  f_equal. unfold mapping_value. f_equal.
  rewrite <- (list_to_map_to_list M) at 2.
  rewrite <- list_to_map_fmap.
  symmetry. apply list_to_map_proper.
  - rewrite <- list_fmap_compose.
    rewrite (list_fmap_ext _ fst (map_to_list M)) by (by intros []).
    apply NoDup_fst_map_to_list.
  - by rewrite reverse_Permutation.
Qed.
End JSONText.

(** ** The fenced pattern *)

Module RegExpMore.
Import RegExp RegExpFacts.

(** Whether a pattern matches does not depend on the capture it is handed,
    as long as what follows it does not. *)
Lemma run_weaken {A B} r : ∀ s cap cap' (k : jsstring → option jsstring → option A)
    (k' : jsstring → option jsstring → option B),
  (∀ s' c c', is_Some (k s' c) → is_Some (k' s' c')) →
  is_Some (run r s cap k) → is_Some (run r s cap' k').
Proof.
  induction r as [l | a IHa b IHb | a IHa | c | c | a IHa]; intros s cap cap' k k' Hk.
  - simpl. destruct (strip_prefix l s); [apply Hk | done].
  - simpl. apply IHa. intros s' c c'. by apply IHb.
  - simpl. intros Hr.
    destruct (run a s cap k) eqn:Ha.
    + destruct (IHa s cap cap' k k' Hk) as [y ->]; [by rewrite Ha | done].
    + destruct (run a s cap' k'); [done | by eapply Hk].
  - induction s as [|c0 s IHs]; [apply Hk|].
    rewrite (run_star c (c0 :: s) cap k), (run_star c (c0 :: s) cap' k').
    destruct (class_mem c c0); [|apply Hk].
    destruct (run (Star c) s cap k) eqn:Hr.
    + intros _. destruct IHs as [y ->]; [done | done].
    + intros Hs. destruct (run (Star c) s cap' k'); [done | by eapply Hk].
  - induction s as [|c0 s IHs].
    + rewrite (run_lazy c [] cap k), (run_lazy c [] cap' k').
      destruct (k [] cap) eqn:Hk0; [|by intros [? ?]].
      intros _. destruct (Hk [] cap cap') as [y ->]; [by rewrite Hk0 | done].
    + rewrite (run_lazy c (c0 :: s) cap k), (run_lazy c (c0 :: s) cap' k').
      destruct (k (c0 :: s) cap) eqn:Hk0.
      * intros _. destruct (Hk (c0 :: s) cap cap') as [y ->]; [by rewrite Hk0 | done].
      * destruct (k' (c0 :: s) cap'); [done|].
        destruct (class_mem c c0); [apply IHs | done].
  - simpl. apply IHa. intros s' _ _. apply Hk.
Qed.

(** A word of the pattern at the head of a text is found by the matcher,
    if what follows the pattern accepts the rest of the text. *)
Lemma run_complete {A} r w : matches r w →
  ∀ s' cap (k : jsstring → option jsstring → option A),
  (∀ cap', is_Some (k s' cap')) → is_Some (run r (w ++ s') cap k).
Proof.
  induction 1 as [l | a b u v _ IHa _ IHb | a | a u _ IHa | c u Hu | c u Hu | a u _ IHa];
    intros s' cap k Hk.
  - simpl. rewrite strip_prefix_app. apply Hk.
  - simpl. rewrite <- (assoc (++)). apply IHa. intros cap'. by apply IHb.
  - simpl. destruct (run a s' cap k); [by eexists | apply Hk].
  - simpl. destruct (IHa s' cap k Hk) as [y Hy]. rewrite Hy. by eexists.
  - induction Hu as [|x u Hx _ IH]; cbn [app]; rewrite run_star.
    + destruct s' as [|x s'']; [apply Hk|].
      destruct (class_mem c x); [|apply Hk].
      destruct (run (Star c) s'' cap k); [by eexists | apply Hk].
    + rewrite Hx. destruct IH as [y ->]. by eexists.
  - induction Hu as [|x u Hx _ IH]; cbn [app]; rewrite run_lazy.
    + destruct (Hk cap) as [y ->]. by eexists.
    + destruct (k (x :: u ++ s') cap); [by eexists|]. by rewrite Hx.
  - simpl. apply IHa. intros cap'. apply Hk.
Qed.

Lemma match_at_complete r w s' : matches r w → is_Some (match_at r (w ++ s')).
Proof. intros Hw. unfold match_at. by apply run_complete. Qed.

Lemma match_at_sound_is_Some r s :
  is_Some (match_at r s) → ∃ w s', s = w ++ s' ∧ matches r w.
Proof. intros [m Hm]. by eapply match_at_sound. Qed.

(** Where [exec] finds nothing, no suffix of the text starts a match. *)
Lemma exec_None r a b : exec r (a ++ b) = None → match_at r b = None.
Proof.
  induction a as [|c a IH]; simpl.
  - destruct b; simpl; by destruct (match_at r _).
  - destruct (match_at r (c :: a ++ b)); [done | exact IH].
Qed.

(** [exec] passes the positions where nothing matches. *)
Lemma exec_skip r a b :
  (∀ a1 a2, a = a1 ++ a2 → a2 ≠ [] → match_at r (a2 ++ b) = None) →
  exec r (a ++ b) = exec r b.
Proof.
  induction a as [|c a IH]; intros Ha; [done|].
  pose proof (Ha [] (c :: a) eq_refl ltac:(done)) as H0.
  cbn [app exec] in *. rewrite H0.
  apply IH. intros a1 a2 -> Hne. by apply (Ha (c :: a1) a2).
Qed.

Lemma exec_here r s m : match_at r s = Some m → exec r s = Some m.
Proof. intros Hm. destruct s; simpl; by rewrite Hm. Qed.

(** A lazy star passes the positions where what follows it fails. *)
Lemma run_lazy_skip {A} a b cap (k : jsstring → option jsstring → option A) :
  (∀ a1 a2, a = a1 ++ a2 → a2 ≠ [] → k (a2 ++ b) cap = None) →
  run (LazyStar Any) (a ++ b) cap k = run (LazyStar Any) b cap k.
Proof.
  induction a as [|c a IH]; intros Ha; [done|].
  pose proof (Ha [] (c :: a) eq_refl ltac:(done)) as H0.
  rewrite run_lazy. cbn [app] in *. rewrite H0.
  cbn [class_mem]. apply IH. intros a1 a2 -> Hne. by apply (Ha (c :: a1) a2).
Qed.

(** The words of the opening and of the closing of a fence. *)
Lemma space_not_backtick x : class_mem Space x = true → x ≠ backtick.
Proof. intros Hx ->. discriminate. Qed.

Lemma space_not_brace x : class_mem Space x = true → x ≠ chr "}".
Proof. intros Hx ->. discriminate. Qed.

Lemma matches_open w :
  matches re_open w →
  ∃ x W, w = [backtick; backtick; backtick] ++ x :: W ∧ x ≠ backtick ∧ backtick ∉ W.
Proof.
  unfold re_open. intros Hw. inv_matches.
  match goal with
  | H : matches (Star _) ?u |- _ => rename u into ws; inversion H as [ | | | |? ? Hws| |]; subst
  end.
  assert (Hsp : backtick ∉ ws).
  { intros Hin. rewrite list.Forall_forall in Hws. by apply Hws, space_not_backtick in Hin. }
  match goal with H : matches (Opt _) _ |- _ => inversion H; subst end.
  - destruct ws as [|x ws].
    + exists (chr "{"), []. split; [done|]. split; [done | apply not_elem_of_nil].
    + apply not_elem_of_cons in Hsp as [Hx Hsp].
      exists x, (ws ++ str "{"). split; [done|]. split; [done|].
      rewrite not_elem_of_app. split; [done | by_compute].
  - inv_matches. exists (chr "j"), (str "son" ++ ws ++ str "{"). split; [done|].
    split; [done|]. rewrite !not_elem_of_app. split; [by_compute|]. split; [done | by_compute].
Qed.

Lemma matches_close w :
  matches re_close w → ∃ V, w = chr "}" :: V ∧ chr "}" ∉ V.
Proof.
  unfold re_close. intros Hw. inv_matches.
  match goal with
  | H : matches (Star _) ?u |- _ => rename u into ws; inversion H as [ | | | |? ? Hws| |]; subst
  end.
  exists (ws ++ str "```"). split; [done|].
  rewrite not_elem_of_app. split; [|by_compute].
  intros Hin. rewrite list.Forall_forall in Hws. by apply Hws, space_not_brace in Hin.
Qed.

(** An opening that starts before a fence ends before it. *)
Lemma open_before_fence a rest :
  a ≠ [] →
  is_Some (match_at re_open (a ++ backtick :: backtick :: backtick :: rest)) →
  is_Some (match_at re_open a).
Proof.
  intros Hne (w & s' & Heq & Hw)%match_at_sound_is_Some.
  destruct (matches_open w Hw) as (x & W & -> & Hx & HW).
  cut (∃ a', a = ([backtick; backtick; backtick] ++ x :: W) ++ a').
  { intros [a' ->]. by apply match_at_complete. }
  clear Hw. cbn [app] in *.
  destruct a as [|a0 [|a1 [|a2 a3]]]; [done|..]; cbn [app] in Heq.
  - by simplify_eq.
  - by simplify_eq.
  - destruct a3 as [|a3 a4]; cbn [app] in Heq; [by simplify_eq|].
    assert (Heq' : a4 ++ backtick :: backtick :: backtick :: rest = W ++ s')
      by congruence.
    assert (Hhd : [a0; a1; a2; a3] = [backtick; backtick; backtick; x])
      by congruence.
    injection Hhd as -> -> -> ->. clear Heq.
    apply app_eq_inv in Heq' as [(k & -> & _) | (k & -> & Hk)].
    + by exists k.
    + destruct k as [|k0 k]; [exists []; by rewrite !app_nil_r|].
      injection Hk as <- _. destruct HW. rewrite elem_of_app. right. by left.
Qed.

(** A closing that starts inside a braced text ends inside it. *)
Lemma close_inside a0 rest :
  a0 ≠ [] →
  is_Some (match_at re_close ((a0 ++ [chr "}"]) ++ rest)) →
  is_Some (match_at re_close (a0 ++ [chr "}"])).
Proof.
  intros Hne (w & s' & Heq & Hw)%match_at_sound_is_Some.
  destruct (matches_close w Hw) as (V & -> & HV).
  cut (∃ a', a0 ++ [chr "}"] = (chr "}" :: V) ++ a').
  { intros [a' ->]. by apply match_at_complete. }
  clear Hw. destruct a0 as [|c0 a0]; [done|]. cbn [app] in *.
  assert (Heq' : (a0 ++ [chr "}"]) ++ rest = V ++ s') by congruence.
  assert (Hhd : c0 = chr "}") by congruence. subst c0. clear Heq.
  apply app_eq_inv in Heq' as [(k & Hk & _) | (k & -> & Hk)].
  - exists k. by rewrite Hk.
  - destruct HV. rewrite !elem_of_app. left. right. by left.
Qed.

(** The steps of the matcher, one pattern at a time. *)
Lemma run_seq {A} a b s cap (k : jsstring → option jsstring → option A) :
  run (Seq a b) s cap k = run a s cap (λ s' cap', run b s' cap' k).
Proof. reflexivity. Qed.

Lemma run_lit {A} l s cap (k : jsstring → option jsstring → option A) :
  run (Lit l) s cap k =
    match strip_prefix l s with
    | Some rest => k rest cap
    | None => None
    end.
Proof. reflexivity. Qed.

Lemma run_opt {A} a s cap (k : jsstring → option jsstring → option A) :
  run (Opt a) s cap k =
    match run a s cap k with
    | Some x => Some x
    | None => k s cap
    end.
Proof. reflexivity. Qed.

Lemma run_group {A} a s cap (k : jsstring → option jsstring → option A) :
  run (Group a) s cap k =
    run a s cap (λ s' _, k s' (Some (take (length s - length s') s))).
Proof. reflexivity. Qed.

Lemma run_seq_weaken {A B} a b b' s cap cap'
    (k : jsstring → option jsstring → option A)
    (k' : jsstring → option jsstring → option B) :
  (∀ s1 c c', is_Some (run b s1 c k) → is_Some (run b' s1 c' k')) →
  is_Some (run (Seq a b) s cap k) → is_Some (run (Seq a b') s cap' k').
Proof. intros Hb. rewrite !run_seq. by apply run_weaken. Qed.

Lemma fenced_opens s : is_Some (match_at re_fenced s) → is_Some (match_at re_open s).
Proof.
  unfold match_at, re_fenced, re_open.
  apply run_seq_weaken. intros s1 c1 c1'.
  apply run_seq_weaken. intros s2 c2 c2'.
  apply run_seq_weaken. intros s3 c3 c3'.
  rewrite run_seq, run_group, run_seq, !run_lit.
  destruct (strip_prefix (str "{") s3); [by eexists | by intros [? ?]].
Qed.

(** What follows the lazy star of the fenced pattern succeeds only where a
    closing starts. *)
Lemma closing_starts {A} x cap (f : jsstring → option jsstring)
    (k : jsstring → option jsstring → option A) :
  is_Some (run (Lit (str "}")) x cap
             (λ s' _, run (Seq (Star Space) (Lit (str "```"))) s' (f s') k)) →
  is_Some (match_at re_close x).
Proof.
  unfold match_at, re_close. rewrite run_seq.
  apply run_weaken. intros s1 c c'. apply run_weaken. intros. by eexists.
Qed.

Lemma run_star_stop {A} c x s cap (k : jsstring → option jsstring → option A) :
  class_mem c x = false → run (Star c) (x :: s) cap k = k (x :: s) cap.
Proof. intros Hx. by rewrite run_star, Hx. Qed.

Lemma take_app_minus {A} (a b : list A) : take (length (a ++ b) - length b) (a ++ b) = a.
Proof.
  rewrite length_app. replace (length a + length b - length b)%nat with (length a) by lia.
  by rewrite take_app_length.
Qed.

(** The fenced pattern at a fence around a braced text that holds no
    closing: it captures the braced text. *)
Lemma match_at_fence J after :
  exec re_close (chr "{" :: J ++ [chr "}"]) = None →
  ∃ w, match_at re_fenced
         (str "```" ++ str "json" ++ newline :: (chr "{" :: J ++ [chr "}"])
            ++ newline :: str "```" ++ after)
       = Some {| whole := w; group1 := Some (chr "{" :: J ++ [chr "}"]) |}.
Proof.
  intros Hclose. eexists.
  unfold match_at, re_fenced.
  rewrite run_seq, run_lit, strip_prefix_app.
  rewrite run_seq, run_opt, run_lit, strip_prefix_app.
  rewrite run_seq, run_star. change (class_mem Space newline) with true. cbv iota.
  cbn [app]. rewrite run_star_stop by done.
  rewrite run_seq, run_group, run_seq, run_lit.
  change (chr "{" :: (J ++ [chr "}"]) ++ newline :: str "```" ++ after)
    with (str "{" ++ (J ++ [chr "}"]) ++ newline :: str "```" ++ after).
  rewrite strip_prefix_app. rewrite run_seq.
  rewrite <- (assoc (++) J). rewrite run_lazy_skip.
  - rewrite run_lazy, run_lit.
    change ([chr "}"] ++ newline :: str "```" ++ after)
      with (str "}" ++ newline :: str "```" ++ after).
    rewrite strip_prefix_app.
    rewrite run_seq, run_star. change (class_mem Space newline) with true. cbv iota.
    change (str "```" ++ after) with (backtick :: str "``" ++ after).
    rewrite run_star_stop by done. rewrite run_lit.
    change (backtick :: str "``" ++ after) with (str "```" ++ after).
    rewrite strip_prefix_app. cbv beta iota.
    rewrite (assoc (++) (str "{") (J ++ [chr "}"])).
    rewrite take_app_minus. reflexivity.
  - intros a1 a2 -> Hne.
    match goal with |- ?t = None => destruct t as [m|] eqn:Hm; [|done] end.
    exfalso.
    assert (Hs : is_Some (match_at re_close ((a2 ++ [chr "}"]) ++ newline :: str "```" ++ after))).
    { rewrite <- (assoc (++)). eapply closing_starts. eexists. exact Hm. }
    apply close_inside in Hs as [m' Hm']; [|done].
    rewrite (exec_None re_close (chr "{" :: a1) (a2 ++ [chr "}"])) in Hm'; [done|].
    by rewrite <- Hclose, <- app_comm_cons, <- (assoc (++)).
Qed.
End RegExpMore.
Import RegExpFacts RegExpMore JSONFacts JSONText.

Lemma fenced_split before text after :
  fenced before text after
  = before ++ str "```" ++ str "json" ++ newline :: text ++ newline :: str "```" ++ after.
Proof. reflexivity. Qed.

(** A fenced text is not JSON. *)
Lemma parse_fenced before text after : JSON.parse (fenced before text after) = None.
Proof.
  destruct (JSON.parse _) as [v|] eqn:Hp; [|done].
  apply parse_backticks_quoted in Hp. rewrite fenced_split in Hp.
  apply bq_suffix in Hp. discriminate.
Qed.

(** The fenced pattern finds the fence in the prose. *)
Lemma jsonMatch_fenced before J after :
  RegExp.exec re_open before = None →
  RegExp.exec re_close (chr "{" :: J ++ [chr "}"]) = None →
  ∃ w, jsonMatch (fenced before (chr "{" :: J ++ [chr "}"]) after)
       = Some {| RegExp.whole := w; RegExp.group1 := Some (chr "{" :: J ++ [chr "}"]) |}.
Proof.
  intros Hopen Hclose.
  destruct (match_at_fence J after Hclose) as [w Hw].
  exists w. unfold jsonMatch. rewrite fenced_split.
  rewrite exec_skip.
  - by rewrite (exec_here _ _ _ Hw).
  - intros a1 a2 -> Hne.
    match goal with |- ?t = None => destruct t as [m|] eqn:Hm; [|done] end.
    exfalso.
    assert (Hs : is_Some (RegExp.match_at re_open a2)).
    { apply (open_before_fence a2
               (str "json" ++ newline :: (chr "{" :: J ++ [chr "}"])
                  ++ newline :: str "```" ++ after)); [done|].
      apply fenced_opens. exists m. exact Hm. }
    destruct Hs as [m' Hm']. by rewrite (exec_None _ _ _ Hopen) in Hm'.
Qed.

(** C2, as amended.  A mapping whose JSON text holds no closing brace
    followed by white space and a fence comes back from a [json] fence as
    itself, whatever prose is around the fence, as long as no fenced block
    opens in the prose before it. *)
Theorem fenced_mapping_recovered (M : gmap jsstring (list Z)) before after :
  RegExp.exec re_open before = None →
  RegExp.exec re_close (mapping_text M) = None →
  groups (fenced before (mapping_text M) after) = Continue (mapping_value M).
Proof.
  intros Hopen Hclose. unfold groups. rewrite parse_fenced.
  pose proof (parse_mapping_text M) as Hp.
  unfold mapping_text, members_text in *.
  destruct (jsonMatch_fenced before _ after Hopen Hclose) as [w ->].
  unfold matched_text. cbn [RegExp.group1 truthy].
  rewrite bool_decide_eq_false_2 by done. cbn [negb]. by rewrite Hp.
Qed.

(** * Further properties of the handler *)

(** ** The stages and their outcomes *)

Section Handler.
Context `{Engine} `{Upstream}.

Lemma check_tabs_cases tabs :
  (check_tabs tabs = Return (res_status_json 400 no_tabs_body)
   ∧ (truthy tabs = false
      ∨ ∃ len, Get tabs (str "length") = Continue len ∧ strict_eq_zero len = true))
  ∨ (truthy tabs = true
     ∧ ∃ len, Get tabs (str "length") = Continue len ∧ strict_eq_zero len = false
              ∧ check_tabs tabs = Continue ()).
Proof.
  unfold check_tabs. destruct (truthy tabs) eqn:Ht; cbn [negb]; [|by left; auto].
  destruct (Get_total tabs (str "length") (truthy_not_nullish _ Ht)) as [len Hl].
  rewrite Hl. binds. destruct (strict_eq_zero len) eqn:Hz.
  - left. split; [done|]. right. eauto.
  - right. split; [done|]. eauto.
Qed.

Lemma map_step_throws {A B : Type} (f : A → step B) (P : exn → Prop) l :
  Forall (λ a, (∃ b, f a = Continue b) ∨ ∃ e, f a = Throw e ∧ P e) l →
  (∃ bs, map_step f l = Continue bs) ∨ ∃ e, map_step f l = Throw e ∧ P e.
Proof.
  induction 1 as [|a l Ha _ IH]; simpl; [eauto|].
  binds. destruct Ha as [[b ->] | (e & -> & He)]; [|eauto].
  destruct IH as [[bs ->] | (e & -> & He)]; eauto.
Qed.

Lemma Get_cases v key :
  (∃ x, Get v key = Continue x ∧ nullish v = false)
  ∨ (Get v key = Throw (TypeError (ReadOfNullish key)) ∧ nullish v = true).
Proof.
  destruct (nullish v) eqn:Hn.
  - right. by destruct v.
  - left. destruct (Get_total v key Hn) as [x Hx]. eauto.
Qed.

Lemma ToString_throws v :
  (∃ s, ToString v = Continue s) ∨ ∃ e, ToString v = Throw e ∧ is_TypeError e.
Proof.
  destruct (ToString_cases v) as [? | ->]; [by left|].
  right. eexists. split; [done|]. by eexists.
Qed.

Lemma tab_line_throws tab :
  (∃ s, tab_line tab = Continue s) ∨ ∃ e, tab_line tab = Throw e ∧ is_TypeError e.
Proof.
  unfold tab_line.
  destruct (Get_cases tab (str "id")) as [(id & Hid & Hn) | [Hid _]]; rewrite Hid; binds;
    [|right; eexists; split; [done | by eexists]].
  destruct (ToString_throws id) as [[s1 ->] | (e & -> & He)]; [|eauto].
  destruct (Get_total tab (str "title") Hn) as [title ->].
  destruct (ToString_throws title) as [[s2 ->] | (e & -> & He)]; [|eauto].
  destruct (Get_total tab (str "url") Hn) as [url ->].
  destruct (ToString_throws url) as [[s3 ->] | (e & -> & He)]; eauto.
Qed.

Lemma tab_line_nullish tab :
  nullish tab = true → tab_line tab = Throw (TypeError (ReadOfNullish (str "id"))).
Proof. by destruct tab. Qed.

Lemma tabText_cases tabs :
  (∃ elems lines, tabs = VArr elems ∧ map_step tab_line elems = Continue lines
                  ∧ tabText tabs = Continue (join [newline] lines))
  ∨ ∃ e, tabText tabs = Throw e ∧ is_TypeError e.
Proof.
  destruct tabs as [ | | b | q | s | elems | props];
    try (right; eexists; split; [reflexivity | by eexists]).
  cbn [tabText]. binds.
  destruct (map_step_throws tab_line is_TypeError elems) as [[lines Hl] | (e & He & Ht)].
  - apply Forall_forall. intros tab _. apply tab_line_throws.
  - left. exists elems, lines. by rewrite Hl.
  - right. exists e. by rewrite He.
Qed.

Lemma before_call_cases body :
  (∃ tabs, Get body (str "tabs") = Continue tabs
           ∧ check_tabs tabs = Return (res_status_json 400 no_tabs_body)
           ∧ before_call body = Return (res_status_json 400 no_tabs_body))
  ∨ (∃ e, before_call body = Throw (TypeError e)
          ∧ ∀ tabs, Get body (str "tabs") = Continue tabs → check_tabs tabs = Continue ())
  ∨ (∃ elems lines, Get body (str "tabs") = Continue (VArr elems) ∧ elems ≠ []
       ∧ map_step tab_line elems = Continue lines
       ∧ before_call body = Continue (prompt (join [newline] lines))).
Proof.
  unfold before_call.
  destruct (Get_cases body (str "tabs")) as [(tabs & Hb & _) | [Hb _]]; rewrite Hb; binds.
  2:{ right. left. eexists. split; [done|]. intros ? [=]. }
  destruct (check_tabs_cases tabs) as [[Hc Hwhy] | (Ht & len & Hl & Hz & Hc)]; rewrite Hc.
  { left. eauto. }
  right. rewrite Hl.
  destruct (ToString_throws len) as [[s ->] | (e & -> & [t ->])].
  2:{ left. exists t. split; [done|]. by intros ? [= <-]. }
  destruct (tabText_cases tabs) as [(elems & lines & -> & Hm & ->) | (e & -> & [t ->])].
  2:{ left. exists t. split; [done|]. by intros ? [= <-]. }
  right. exists elems, lines. split; [done|]. split; [|done].
  intros ->. rewrite Get_length_array in Hl. injection Hl as <-.
  by rewrite strict_eq_zero_VInt in Hz.
Qed.

(** What the loop of three attempts does, by the call that first succeeds. *)
Lemma attempt_loop_outcomes request trace s :
  attempt_loop maxAttempts request 0 = Some (trace, s) →
  ∃ k, (k < 3)%nat
    ∧ (∀ i, (i < k)%nat → ∃ e, generateContent i request = Rejected e)
    ∧ trace = backoff request k
    ∧ ((∃ response, generateContent k request = Resolved response ∧ s = Continue response)
       ∨ (k = 2%nat ∧ ∃ e, generateContent 2 request = Rejected e ∧ s = Throw e)).
Proof.
  simpl.
  destruct (generateContent 0 request) as [r0 | e0] eqn:Hc0.
  { intros [= <- <-]. exists 0%nat. split; [lia|]. split; [intros; lia|]. split; [done|].
    left. eauto. }
  destruct (generateContent 1 request) as [r1 | e1] eqn:Hc1.
  { intros [= <- <-]. exists 1%nat. split; [lia|]. split.
    - intros i Hi. assert (i = 0%nat) as -> by lia. eauto.
    - split; [done|]. left. eauto. }
  assert (Hrej : ∀ i, (i < 2)%nat → ∃ e, generateContent i request = Rejected e).
  { intros i Hi. destruct i as [|[|i]]; [eauto | eauto | lia]. }
  destruct (generateContent 2 request) as [r2 | e2] eqn:Hc2.
  - intros [= <- <-]. exists 2%nat. split; [lia|]. split; [done|]. split; [done|].
    left. eauto.
  - intros [= <- <-]. exists 2%nat. split; [lia|]. split; [done|]. split; [done|].
    right. eauto.
Qed.

Lemma GetOpt_total v key : ∃ x, GetOpt v key = Continue x.
Proof.
  unfold GetOpt. destruct (nullish v) eqn:Hn; [eauto | by apply Get_total].
Qed.

(** The optional chain of line 98 throws on no response that can be read. *)
Lemma candidate_text_total response :
  nullish response = false → ∃ v, candidate_text response = Continue v.
Proof.
  intros Hn. unfold candidate_text.
  destruct (Get_total response (str "candidates") Hn) as [c0 ->]. binds.
  destruct (GetOpt_total c0 (str "0")) as [c1 ->].
  destruct (GetOpt_total c1 (str "content")) as [c2 ->].
  destruct (GetOpt_total c2 (str "parts")) as [c3 ->].
  destruct (GetOpt_total c3 (str "0")) as [c4 ->].
  apply GetOpt_total.
Qed.

Lemma Object_keys_total response :
  nullish response = false → ∃ keys, Object_keys response = Continue keys.
Proof. destruct response; simpl; try discriminate; eauto. Qed.

Lemma resultText_cases response :
  nullish response = false →
  (∃ text, resultText response = Continue text
           ∧ (truthy text = true ∨ ∃ s, response = VStr s ∧ text = response))
  ∨ (∃ keys text nested, Object_keys response = Continue keys
       ∧ Get response (str "text") = Continue text ∧ truthy text = false
       ∧ candidate_text response = Continue nested ∧ truthy nested = false
       ∧ typeof response ≠ str "string"
       ∧ resultText response = Return (res_status_json 500 (unexpected_body keys))).
Proof.
  intros Hn. unfold resultText.
  destruct (Get_total response (str "text") Hn) as [text Ht]. rewrite Ht. binds.
  destruct (truthy text) eqn:Htt; [by left; eauto|].
  destruct (candidate_text_total response Hn) as [nested Hc]. rewrite Hc.
  destruct (truthy nested) eqn:Hnt.
  { left. exists nested. rewrite (candidate_text_strict_eq _ _ Hc Hnt). eauto. }
  case_bool_decide as Hty.
  { left. exists response. split; [done|]. right. destruct response; try done. eauto. }
  destruct (Object_keys_total response Hn) as [keys Hk]. rewrite Hk.
  right. exists keys, text, nested. done.
Qed.

Lemma after_call_cases response :
  (nullish response = true ∧ after_call response = Throw (TypeError NotAnObject))
  ∨ (∃ keys, Object_keys response = Continue keys
       ∧ after_call response = Return (res_status_json 500 (unexpected_body keys)))
  ∨ (∃ text, resultText response = Continue text ∧ truthy text = true
       ∧ (∀ s, text ≠ VStr s)
       ∧ after_call response
         = Throw (TypeError (NotAFunction (str "resultText.substring"))))
  ∨ (∃ s, nullish response = false ∧ resultText response = Continue (VStr s)
       ∧ after_call response = (parsed ← groups s; check_groups parsed)).
Proof.
  destruct (nullish response) eqn:Hn.
  { left. by destruct response. }
  right. unfold after_call.
  destruct (Object_keys_total response Hn) as [keys Hk]. rewrite Hk. binds.
  destruct (resultText_cases response Hn)
    as [(text & Hr & Hwhy) | (keys' & text & nested & Hk' & _ & _ & _ & _ & _ & Hr)];
    rewrite Hr.
  2:{ left. exists keys'. split; [congruence | reflexivity]. }
  right. destruct text as [ | | b | q | s | elems | props];
    try (left; eexists; split; [done|]; split;
         [by destruct Hwhy as [? | (? & -> & ?)] | done]).
  right. exists s. done.
Qed.

Lemma groups_cases text :
  (∃ v, groups text = Continue v)
  ∨ (∃ error, (error = str "Failed to parse AI response as JSON"
               ∨ error = str "No valid JSON found in AI response")
       ∧ groups text
         = Return (res_status_json 500 (parse_error_body error (take 500 text)))).
Proof.
  unfold groups. destruct (JSON.parse text); [by left; eauto|].
  destruct (jsonMatch text) as [m|].
  - destruct (JSON.parse (matched_text m)); [by left; eauto|]. right. eauto.
  - right. eauto.
Qed.

Lemma check_groups_cases v :
  (check_groups v = Continue v ∧ ((∃ elems, v = VArr elems) ∨ ∃ props, v = VObj props))
  ∨ check_groups v = Return (res_status_json 500 (invalid_body v)).
Proof. destruct v; (by right) || (left; split; [done|]; eauto). Qed.

Lemma check_tabs_rejects tabs :
  truthy tabs = false
  ∨ (∃ len, Get tabs (str "length") = Continue len ∧ strict_eq_zero len = true) →
  check_tabs tabs = Return (res_status_json 400 no_tabs_body).
Proof.
  destruct (check_tabs_cases tabs) as [[Hc _] | (Ht & len & Hl & Hz & _)]; [done|].
  intros [Hf | (len' & Hl' & Hz')]; congruence.
Qed.

Lemma attempt_loop_resolved request k response :
  (k < 3)%nat →
  (∀ i, (i < k)%nat → ∃ e, generateContent i request = Rejected e) →
  generateContent k request = Resolved response →
  attempt_loop maxAttempts request 0 = Some (backoff request k, Continue response).
Proof.
  intros Hk Hrej Hres. simpl.
  destruct k as [|[|[|k]]]; [| | |lia].
  - by rewrite Hres.
  - destruct (Hrej 0%nat) as [e0 ->]; [lia|]. by rewrite Hres.
  - destruct (Hrej 0%nat) as [e0 ->]; [lia|].
    destruct (Hrej 1%nat) as [e1 ->]; [lia|]. by rewrite Hres.
Qed.

Lemma map_step_continue_inv {A B : Type} (f : A → step B) l bs :
  map_step f l = Continue bs → Forall (λ a, ∃ b, f a = Continue b) l.
Proof.
  revert bs. induction l as [|a l IH]; intros bs; [constructor|].
  rewrite map_step_cons. binds.
  destruct (f a) as [b | |] eqn:Ha; try discriminate.
  destruct (map_step f l) as [bs' | |]; try discriminate.
  intros _. constructor; eauto.
Qed.

Lemma after_call_return_error response r :
  after_call response = Return r →
  ∃ msg, error_of r = Some (VStr msg) ∧ msg ∈ error_messages
         ∧ msg ≠ str "No tabs provided".
Proof.
  destruct (after_call_cases response)
    as [[_ ->] | [(keys & _ & ->) | [(text & _ & _ & _ & ->) | (s & _ & _ & ->)]]];
    try discriminate.
  - intros [= <-]. exists (str "Unexpected API response structure").
    split; [reflexivity|]. split; [|by_compute]. by_compute.
  - binds. destruct (groups_cases s) as [[v ->] | (error & Herr & ->)].
    + destruct (check_groups_cases v) as [[-> _] | ->]; [discriminate|].
      intros [= <-]. exists (str "Invalid response structure from AI").
      split; [reflexivity|]. split; by_compute.
    + intros [= <-]. exists error. split; [reflexivity|].
      destruct Herr as [-> | ->]; split; by_compute.
Qed.


(** X2.  The answer is a 400 exactly when the body can be read and its
    [tabs] is falsy or has a [length] strictly equal to 0.  A 400 always
    carries the body [{"error": "No tabs provided"}] and is sent without any
    upstream call. *)
Theorem bad_request_iff body trace r :
  group_tabs body = Some (trace, r) →
  (status r = 400%Z ↔
     ∃ tabs, Get body (str "tabs") = Continue tabs
       ∧ (truthy tabs = false
          ∨ ∃ len, Get tabs (str "length") = Continue len ∧ strict_eq_zero len = true))
  ∧ (status r = 400%Z → trace = [] ∧ r = res_status_json 400 no_tabs_body).
Proof.
  intros Hg.
  destruct (before_call_cases body)
    as [(tabs & Ht & Hc & Hb) | Hrest].
  - rewrite (group_tabs_before_return _ _ Hb) in Hg. injection Hg as <- <-.
    split; [|done]. split; [|done]. intros _. exists tabs. split; [done|].
    destruct (check_tabs_cases tabs) as [[_ Hwhy] | (_ & _ & _ & _ & Hc')]; [done|].
    congruence.
  - assert (Hs : status r = 200%Z ∨ status r = 500%Z).
    { apply (group_tabs_status body trace r Hg). intros r' Hr'.
      destruct Hrest as [(e & Hb & _) | (elems & lines & _ & _ & _ & Hb)]; congruence. }
    assert (Hne : status r ≠ 400%Z) by (destruct Hs as [-> | ->]; done).
    split; [|done]. split; [done|].
    intros (tabs & Ht & Hwhy). apply check_tabs_rejects in Hwhy.
    destruct Hrest as [(e & _ & Hc) | (elems & lines & Ht' & Hel & _ & _)].
    + rewrite (Hc tabs Ht) in Hwhy. discriminate.
    + assert (tabs = VArr elems) as -> by congruence.
      rewrite (check_tabs_nonempty elems Hel) in Hwhy. discriminate.
Qed.

(** X3.  Once the prompt is built, the upstream is called until a call
    succeeds, three times at most: after [k] failures the trace is [k] calls,
    each followed by a wait of 1000 ms times the number of failures so far,
    and one last call.  The answer is made from the response of the call
    that succeeded, or from the third failure when all three calls failed. *)
Theorem retry_outcomes body p trace r :
  before_call body = Continue p →
  group_tabs body = Some (trace, r) →
  ∃ k, (k < 3)%nat
    ∧ (∀ i, (i < k)%nat → ∃ e, generateContent i (request p) = Rejected e)
    ∧ trace = backoff (request p) k
    ∧ ((∃ response, generateContent k (request p) = Resolved response
                    ∧ r = respond (after_call response))
       ∨ (k = 2%nat ∧ ∃ e, generateContent 2 (request p) = Rejected e
                          ∧ r = res_status_json 500 (went_wrong_body e))).
Proof.
  intros Hb. unfold group_tabs. rewrite Hb.
  destruct (attempt_loop maxAttempts (request p) 0) as [[t s]|] eqn:Hl; [|done].
  intros [= <- <-].
  destruct (attempt_loop_outcomes _ _ _ Hl) as (k & Hk & Hrej & Ht & Hs).
  exists k. split; [done|]. split; [done|]. split; [done|].
  destruct Hs as [(response & Hres & ->) | (-> & e & Hres & ->)].
  - left. eauto.
  - right. split; [done|]. eauto.
Qed.

(** X4.  A 200 is sent only after an upstream call that succeeded, and its
    body is the value recovered from the response of that call: an object or
    an array, never a string, a number, a boolean or [null]. *)
Theorem ok_answer body trace r :
  group_tabs body = Some (trace, r) →
  status r = 200%Z →
  ∃ p k response g,
    before_call body = Continue p
    ∧ trace = backoff (request p) k
    ∧ generateContent k (request p) = Resolved response
    ∧ after_call response = Continue g
    ∧ r = res_json g
    ∧ ((∃ elems, g = VArr elems) ∨ ∃ props, g = VObj props).
Proof.
  intros Hg Hs.
  destruct (before_call_cases body)
    as [(tabs & _ & _ & Hb) | [(e & Hb & _) | (elems & lines & _ & _ & _ & Hb)]].
  - rewrite (group_tabs_before_return _ _ Hb) in Hg. injection Hg as <- <-. done.
  - rewrite (group_tabs_before_throw _ _ Hb) in Hg. injection Hg as <- <-. done.
  - revert Hg. unfold group_tabs. rewrite Hb.
    destruct (attempt_loop maxAttempts _ 0) as [[t s]|] eqn:Hl; [|done].
    intros [= <- <-].
    destruct (attempt_loop_outcomes _ _ _ Hl) as (k & _ & _ & Ht & Hr).
    destruct Hr as [(response & Hres & ->) | (_ & e & _ & ->)]; [|done].
    cbn [mbind step_bind] in Hs |- *.
    destruct (after_call response) as [g | r' | e] eqn:Ha.
    + exists (prompt (join [newline] lines)), k, response, g.
      do 5 (split; [done|]).
      destruct (after_call_cases response)
        as [[_ Hc] | [(keys & _ & Hc) | [(text & _ & _ & _ & Hc) | (s & _ & _ & Hc)]]];
        rewrite Hc in Ha; try discriminate.
      revert Ha. binds. destruct (groups s) as [v | |]; try discriminate.
      destruct (check_groups_cases v) as [[-> Hv] | ->]; [|discriminate].
      by intros [= <-].
    + apply after_call_return in Ha. simpl in Hs. congruence.
    + done.
Qed.

(** X5.  Every answer that is not a 200 carries an object whose [error] is
    one of six fixed messages, and "No tabs provided" is the message of the
    400 and of no 500. *)
Theorem error_vocabulary body trace r :
  group_tabs body = Some (trace, r) →
  status r ≠ 200%Z →
  ∃ msg, error_of r = Some (VStr msg) ∧ msg ∈ error_messages
    ∧ (status r = 400%Z ↔ msg = str "No tabs provided").
Proof.
  intros Hg Hs.
  destruct (before_call_cases body)
    as [(tabs & _ & _ & Hb) | [(e & Hb & _) | (elems & lines & _ & _ & _ & Hb)]].
  - rewrite (group_tabs_before_return _ _ Hb) in Hg. injection Hg as <- <-.
    exists (str "No tabs provided"). split; [reflexivity|]. split; [by_compute | done].
  - rewrite (group_tabs_before_throw _ _ Hb) in Hg. injection Hg as <- <-.
    exists (str "Something went wrong"). split; [reflexivity|]. split; [by_compute|].
    split; [done|]. intros Hm. exfalso. revert Hm. by_compute.
  - revert Hg. unfold group_tabs. rewrite Hb.
    destruct (attempt_loop maxAttempts _ 0) as [[t s]|] eqn:Hl; [|done].
    intros [= <- <-].
    assert (Hthrow : ∀ e,
      ∃ msg, error_of (respond (Throw e)) = Some (VStr msg) ∧ msg ∈ error_messages
        ∧ (status (respond (Throw e)) = 400%Z ↔ msg = str "No tabs provided")).
    { intros e. exists (str "Something went wrong").
      split; [reflexivity|]. split; [by_compute|].
      split; [done|]. intros Hm. exfalso. revert Hm. by_compute. }
    destruct s as [response | r' | e]; cbn [mbind step_bind] in Hs |- *.
    + destruct (after_call response) as [g | r' | e] eqn:Ha; [done | | apply Hthrow].
      destruct (after_call_return_error _ _ Ha) as (msg & He & Hin & Hne).
      exists msg. split; [done|]. split; [done|].
      apply after_call_return in Ha. cbn [respond]. rewrite Ha. done.
    + by destruct (attempt_loop_no_return _ _ _ _ _ r' Hl).
    + apply Hthrow.
Qed.

(** X6.  The upstream is called only for a [tabs] that is an array, not
    empty, every element of which gave its line; nothing but waits comes
    between the calls, and every call carries the same request, made of
    these lines. *)
Theorem upstream_needs_tabs body trace r :
  group_tabs body = Some (trace, r) →
  trace ≠ [] →
  ∃ elems lines,
    Get body (str "tabs") = Continue (VArr elems)
    ∧ elems ≠ []
    ∧ map_step tab_line elems = Continue lines
    ∧ Forall (λ ev, ev = Call (request (prompt (join [newline] lines)))
                    ∨ ∃ ms, ev = Wait ms) trace.
Proof.
  intros Hg Hne.
  destruct (before_call_cases body)
    as [(tabs & _ & _ & Hb) | [(e & Hb & _) | (elems & lines & Ht & Hel & Hm & Hb)]].
  - rewrite (group_tabs_before_return _ _ Hb) in Hg. by injection Hg as <- <-.
  - rewrite (group_tabs_before_throw _ _ Hb) in Hg. by injection Hg as <- <-.
  - exists elems, lines. do 3 (split; [done|]).
    revert Hg. unfold group_tabs. rewrite Hb.
    destruct (attempt_loop maxAttempts _ 0) as [[t s]|] eqn:Hl; [|done].
    intros [= <- <-].
    destruct (attempt_loop_outcomes _ _ _ Hl) as (k & Hk & _ & -> & _).
    destruct k as [|[|[|k]]]; [| | |lia]; unfold backoff; simpl;
      repeat (apply Forall_cons; [eauto|]); apply Forall_nil.
Qed.

(** X7.  A list of tabs with a [null] or [undefined] element is answered
    with 500 "Something went wrong" and the message of a [TypeError], and
    the upstream is not called. *)
Theorem null_tab_rejected body elems :
  Get body (str "tabs") = Continue (VArr elems) →
  Exists (λ tab, nullish tab = true) elems →
  ∃ e, group_tabs body = Some ([], res_status_json 500 (went_wrong_body (TypeError e))).
Proof.
  intros Ht Hex.
  destruct (before_call_cases body)
    as [(tabs & Ht' & Hc & _) | [(e & Hb & _) | (elems' & lines & Ht' & _ & Hm & _)]].
  - assert (tabs = VArr elems) as -> by congruence.
    rewrite check_tabs_nonempty in Hc; [done|]. intros ->. inversion Hex.
  - exists e. by apply group_tabs_before_throw.
  - assert (elems' = elems) as -> by congruence.
    apply map_step_continue_inv in Hm.
    apply list.Exists_exists in Hex as (tab & Hin & Hn).
    rewrite list.Forall_forall in Hm. destruct (Hm tab Hin) as [b Hb].
    rewrite (tab_line_nullish tab Hn) in Hb. discriminate.
Qed.

(** X8.  A call that resolves with [null] or [undefined] is a success for
    the loop: no other call follows it, and the answer is the catch-all 500
    with the message of the [TypeError] of [Object.keys]. *)
Theorem empty_response_not_retried body p k response :
  before_call body = Continue p →
  (k < 3)%nat →
  (∀ i, (i < k)%nat → ∃ e, generateContent i (request p) = Rejected e) →
  generateContent k (request p) = Resolved response →
  nullish response = true →
  group_tabs body
  = Some (backoff (request p) k,
          res_status_json 500 (went_wrong_body (TypeError NotAnObject))).
Proof.
  intros Hb Hk Hrej Hres Hn. unfold group_tabs.
  rewrite Hb, (attempt_loop_resolved _ k response Hk Hrej Hres).
  by destruct response.
Qed.

(** X9.  After the upstream call there are two exceptions and no other:
    that of [Object.keys] on a response that is [null] or [undefined], and
    that of [substring] on an extracted text that is not a string.  No
    failure of [JSON.parse] reaches the catch-all. *)
Theorem after_call_throws response e :
  after_call response = Throw e ↔
    (nullish response = true ∧ e = TypeError NotAnObject)
    ∨ (∃ text, resultText response = Continue text ∧ (∀ s, text ≠ VStr s)
               ∧ e = TypeError (NotAFunction (str "resultText.substring"))).
Proof.
  destruct (after_call_cases response)
    as [[Hn Ha] | [(keys & Hk & Ha) | [(text & Hr & _ & Hs & Ha) | (s & Hn & Hr & Ha)]]];
    rewrite Ha.
  - split.
    + intros [= <-]. by left.
    + intros [[_ ->] | (text & Hr & _)]; [done|]. by destruct response.
  - split; [done|].
    intros [[Hn _] | (text & Hr & Hs & _)]; [by destruct response|].
    exfalso. revert Ha. unfold after_call. rewrite Hk, Hr. binds.
    destruct text; try discriminate. by destruct (Hs s).
  - split.
    + intros [= <-]. right. eauto.
    + intros [[Hn _] | (text' & Hr' & _ & ->)]; [by destruct response | done].
  - split.
    + binds. destruct (groups_cases s) as [[v ->] | (error & _ & ->)]; [|done].
      by destruct (check_groups_cases v) as [[-> _] | ->].
    + intros [[Hn' _] | (text & Hr' & Hs & _)]; [congruence|].
      rewrite Hr in Hr'. injection Hr' as <-. by destruct (Hs s).
Qed.

(** X10.  A response with no truthy [text], no truthy text in its first
    candidate, and that is not itself a string, is answered with 500
    "Unexpected API response structure" and the keys of the response; for an
    object these are its own property names, each of them once. *)
Theorem extraction_error_keys response text nested :
  Get response (str "text") = Continue text → truthy text = false →
  candidate_text response = Continue nested → truthy nested = false →
  typeof response ≠ str "string" →
  ∃ keys, Object_keys response = Continue keys
    ∧ after_call response = Return (res_status_json 500 (unexpected_body keys))
    ∧ ∀ props, response = VObj props →
        NoDup keys ∧ ∀ key, key ∈ keys ↔ is_Some (props !! key).
Proof.
  intros Ht Hf Hc Hnf Hty.
  assert (Hn : nullish response = false) by (by destruct response).
  destruct (Object_keys_total response Hn) as [keys Hk].
  exists keys. split; [done|]. split.
  - unfold after_call, resultText. rewrite Hk, Ht. binds.
    rewrite Hf, Hc, Hnf, bool_decide_eq_false_2 by done. done.
  - intros props ->. injection Hk as <-. split.
    + apply NoDup_fst_map_to_list.
    + intros key. rewrite list_elem_of_fmap. split.
      * intros ([k v] & -> & Hin). apply elem_of_map_to_list in Hin. eauto.
      * intros [v Hv]. exists (key, v). split; [done|]. by apply elem_of_map_to_list.
Qed.

Lemma before_call_batch (batch : list Tab) body :
  batch ≠ [] →
  Get body (str "tabs") = Continue (VArr (tab_value <$> batch)) →
  before_call body = Continue (prompt (join [newline] (tab_line_text <$> batch))).
Proof.
  intros Hne Hb. rewrite (before_call_checked _ _ Hb).
  - rewrite Get_length_array. binds. simpl ToString. unfold tabText. binds.
    by rewrite (map_step_continue tab_line tab_value tab_line_text _ tab_line_tab).
  - apply check_tabs_nonempty. by destruct batch.
Qed.

Lemma after_call_string text :
  after_call (VStr text) = (parsed ← groups text; check_groups parsed).
Proof. reflexivity. Qed.

Lemma after_call_text text :
  text ≠ [] → after_call (text_response text) = (parsed ← groups text; check_groups parsed).
Proof.
  intros Hne. unfold after_call, resultText.
  change (Get (text_response text) (str "text")) with (Continue (VStr text)).
  change (Object_keys (text_response text)) with (@Continue (list jsstring) [str "text"]).
  binds. cbn [truthy]. by rewrite bool_decide_eq_false_2.
Qed.

Lemma after_call_candidates text :
  text ≠ [] →
  after_call (candidates_response text) = (parsed ← groups text; check_groups parsed).
Proof.
  intros Hne. unfold after_call, resultText.
  change (Get (candidates_response text) (str "text")) with (Continue VUndefined).
  change (candidate_text (candidates_response text)) with (Continue (VStr text)).
  change (candidate_text_strict (candidates_response text)) with (Continue (VStr text)).
  change (Object_keys (candidates_response text))
    with (@Continue (list jsstring) [str "candidates"]).
  binds. cbn [truthy]. by rewrite bool_decide_eq_false_2.
Qed.

(** X11.  A text that is not empty is handled the same whether the response
    carries it as its [text], carries it as the text of the first part of
    its first candidate, or is that text itself. *)
Theorem response_shapes_agree text :
  text ≠ [] →
  after_call (text_response text) = after_call (VStr text)
  ∧ after_call (candidates_response text) = after_call (VStr text).
Proof.
  intros Hne.
  by rewrite after_call_text, after_call_candidates, after_call_string.
Qed.

Lemma mapping_text_nonempty M : mapping_text M ≠ [].
Proof. done. Qed.

(** X12.  From the request to the answer: for a batch of tabs that is not
    empty, when the upstream, after [k] failures with [k] below 3, resolves
    with the JSON text of a mapping, the answer is 200 with that mapping,
    after the calls and the waits of [k] failures. *)
Theorem grouped_batch (batch : list Tab) (body : value) (M : gmap jsstring (list Z))
    (k : nat) :
  batch ≠ [] →
  Get body (str "tabs") = Continue (VArr (tab_value <$> batch)) →
  let p := prompt (join [newline] (tab_line_text <$> batch)) in
  (k < 3)%nat →
  (∀ i, (i < k)%nat → ∃ e, generateContent i (request p) = Rejected e) →
  generateContent k (request p) = Resolved (text_response (mapping_text M)) →
  group_tabs body = Some (backoff (request p) k, res_json (mapping_value M)).
Proof.
  intros Hne Hb p Hk Hrej Hres. subst p. unfold group_tabs.
  rewrite (before_call_batch batch body Hne Hb). cbv beta iota.
  rewrite (attempt_loop_resolved _ k _ Hk Hrej Hres).
  cbn [mbind step_bind].
  rewrite (after_call_text _ (mapping_text_nonempty M)).
  unfold groups. by rewrite parse_mapping_text.
Qed.

Lemma join_cons sep a l : l ≠ [] → join sep (a :: l) = a ++ sep ++ join sep l.
Proof. by destruct l. Qed.

Lemma join_middle sep l1 x l y l' :
  join sep (x :: l) = join sep (y :: l') →
  join sep (l1 ++ x :: l) = join sep (l1 ++ y :: l').
Proof.
  intros Hxy. induction l1 as [|a l1 IH]; [done|].
  cbn [app]. rewrite !join_cons, IH; [done | by destruct l1 | by destruct l1].
Qed.

Lemma tab_line_merged t1 t2 :
  tab_line_text (merged t1 t2) = tab_line_text t1 ++ [newline] ++ tab_line_text t2.
Proof.
  unfold tab_line_text, merged. cbn [tab_id tab_title tab_url].
  by rewrite <- !(assoc (++)).
Qed.

(** X13.  The lines of the prompt are not escaped: two tabs that follow
    each other, and the single tab whose title spells out the end of the
    line of the first and the start of the line of the second, give the same
    prompt, and so the same calls and the same answer. *)
Theorem tab_lines_merge (l1 l2 : list Tab) t1 t2 body body' :
  Get body (str "tabs") = Continue (VArr (tab_value <$> l1 ++ t1 :: t2 :: l2)) →
  Get body' (str "tabs") = Continue (VArr (tab_value <$> l1 ++ merged t1 t2 :: l2)) →
  (∃ p, before_call body = Continue p ∧ before_call body' = Continue p)
  ∧ group_tabs body = group_tabs body'.
Proof.
  intros Hb Hb'.
  assert (Hp : ∃ p, before_call body = Continue p ∧ before_call body' = Continue p).
  { eexists. split.
    - apply (before_call_batch (l1 ++ t1 :: t2 :: l2) body ltac:(by destruct l1) Hb).
    - rewrite (before_call_batch (l1 ++ merged t1 t2 :: l2) body'
                 ltac:(by destruct l1) Hb').
      do 2 f_equal. rewrite !fmap_app, !fmap_cons.
      apply join_middle. rewrite tab_line_merged.
      destruct l2 as [|t3 l2]; [done|].
      rewrite fmap_cons. cbn [join]. by rewrite <- !(assoc (++)). }
  split; [exact Hp|].
  destruct Hp as (p & Hp & Hp'). unfold group_tabs. by rewrite Hp, Hp'.
Qed.

End Handler.

(** ** The captures of the patterns *)

Module RegExpCaptures.
Import RegExp.

Lemma run_captures {A} r : ∀ s cap (k : jsstring → option jsstring → option A) x,
  run r s cap k = Some x →
  ∃ w s' cap', s = w ++ s' ∧ captures r w cap cap' ∧ k s' cap' = Some x.
Proof.
  induction r as [l | a IHa b IHb | a IHa | c | c | a IHa]; intros s cap k x.
  - rewrite run_lit. destruct (strip_prefix l s) as [rest|] eqn:Hl; [|done].
    intros Hk. apply strip_prefix_Some in Hl. exists l, rest, cap.
    split; [done|]. split; [constructor | done].
  - rewrite run_seq. intros Hr.
    apply IHa in Hr as (u & s1 & cap1 & -> & Hu & Hr).
    apply IHb in Hr as (v & s2 & cap2 & -> & Hv & Hr).
    exists (u ++ v), s2, cap2. rewrite <- (assoc (++)).
    split; [done|]. split; [by econstructor | done].
  - rewrite run_opt. destruct (run a s cap k) as [y|] eqn:Ha.
    + intros [= ->]. apply IHa in Ha as (u & s1 & cap1 & -> & Hu & Hr).
      exists u, s1, cap1. split; [done|]. split; [by apply captures_opt_some | done].
    + intros Hk. exists [], s, cap. split; [done|]. split; [constructor | done].
  - induction s as [|c0 s IHs]; rewrite run_star.
    + intros Hk. exists [], [], cap. split; [done|]. split; [constructor | done].
    + assert (Hstop : k (c0 :: s) cap = Some x →
                ∃ w s' cap', c0 :: s = w ++ s' ∧ captures (Star c) w cap cap'
                             ∧ k s' cap' = Some x).
      { intros Hk. exists [], (c0 :: s), cap. split; [done|]. split; [constructor | done]. }
      destruct (class_mem c c0) eqn:Hc; [|done].
      destruct (run (Star c) s cap k) as [y|] eqn:Hr; [|done].
      intros [= ->]. destruct (IHs eq_refl) as (w & s' & cap' & -> & Hw & Hk).
      exists (c0 :: w), s', cap'. split; [done|]. split; [|done].
      inversion Hw; subst. constructor.
  - induction s as [|c0 s IHs]; rewrite run_lazy.
    + destruct (k [] cap) as [y|] eqn:Hk; [|done].
      intros [= ->]. exists [], [], cap. split; [done|]. split; [constructor | done].
    + destruct (k (c0 :: s) cap) as [y|] eqn:Hk.
      { intros [= ->]. exists [], (c0 :: s), cap. split; [done|]. split; [constructor | done]. }
      destruct (class_mem c c0) eqn:Hc; [|done].
      intros Hr. destruct (IHs Hr) as (w & s' & cap' & -> & Hw & Hk').
      exists (c0 :: w), s', cap'. split; [done|]. split; [|done].
      inversion Hw; subst. constructor.
  - rewrite run_group. intros Hr.
    apply IHa in Hr as (u & s1 & cap1 & -> & Hu & Hr).
    rewrite take_app_minus in Hr.
    exists u, s1, (Some u). split; [done|]. split; [by econstructor | done].
Qed.

Lemma match_at_captures r s m :
  match_at r s = Some m →
  ∃ s', s = whole m ++ s' ∧ captures r (whole m) None (group1 m).
Proof.
  unfold match_at. intros Hr.
  apply run_captures in Hr as (w & s' & cap' & -> & Hw & [= <-]).
  exists s'. cbn [whole group1]. by rewrite take_app_minus.
Qed.

Lemma exec_captures r s m :
  exec r s = Some m →
  ∃ before after, s = before ++ whole m ++ after ∧ captures r (whole m) None (group1 m).
Proof.
  induction s as [|c s IH]; simpl.
  - destruct (match_at r []) as [m'|] eqn:Hm; [|done]. intros [= ->].
    apply match_at_captures in Hm as (s' & Hs & Hw). exists [], s'. eauto.
  - destruct (match_at r (c :: s)) as [m'|] eqn:Hm.
    + intros [= ->]. apply match_at_captures in Hm as (s' & Hs & Hw). exists [], s'. eauto.
    + intros Hr. destruct (IH Hr) as (b & a & -> & Hw).
      exists (c :: b), a. eauto.
Qed.

Lemma captures_fenced w c :
  captures re_fenced w None c →
  ∃ u inner v, w = u ++ (chr "{" :: inner ++ [chr "}"]) ++ v
               ∧ c = Some (chr "{" :: inner ++ [chr "}"]).
Proof.
  unfold re_fenced. intros Hw. inv_captures.
  match goal with
  | |- ∃ u inner v, _ ++ ?a ++ ?b ++ (_ ++ ?i ++ _) ++ ?d ++ _ = _ ∧ _ =>
    exists (str "```" ++ a ++ b), i, (d ++ str "```");
    change (chr "{" :: i ++ [chr "}"]) with (str "{" ++ i ++ str "}")
  end.
  split; [|reflexivity]. by rewrite <- !(assoc (++)).
Qed.

Lemma captures_braces w c :
  captures re_braces w None c →
  ∃ inner, w = chr "{" :: inner ++ [chr "}"] ∧ c = Some w.
Proof.
  unfold re_braces. intros Hw. inv_captures. eexists. split; reflexivity.
Qed.

End RegExpCaptures.
Import RegExpCaptures.

(** X14.  What the recovery patterns hand to [JSON.parse] is a piece of the
    text that starts with an opening brace and ends with a closing brace.
    It is always the capture: the alternative [jsonMatch[0]] of line 131 is
    never taken. *)
Theorem matched_text_braced text m :
  jsonMatch text = Some m →
  ∃ before inner after,
    text = before ++ (chr "{" :: inner ++ [chr "}"]) ++ after
    ∧ RegExp.group1 m = Some (chr "{" :: inner ++ [chr "}"])
    ∧ matched_text m = chr "{" :: inner ++ [chr "}"].
Proof.
  unfold jsonMatch. destruct (RegExp.exec re_fenced text) as [m'|] eqn:Hf.
  - intros [= ->]. apply exec_captures in Hf as (b & a & -> & Hw).
    apply captures_fenced in Hw as (u & inner & v & Hw & Hc).
    exists (b ++ u), inner, (v ++ a). rewrite Hw, <- !(assoc (++)).
    split; [done|]. split; [done|]. unfold matched_text. by rewrite Hc.
  - intros Hb. apply exec_captures in Hb as (b & a & -> & Hw).
    apply captures_braces in Hw as (inner & Hw & Hc).
    exists b, inner, a. rewrite Hw in *.
    split; [done|]. split; [done|]. unfold matched_text. by rewrite Hc.
Qed.

(** ** The braced pattern *)

Module RegExpGreedy.
Import RegExp.

(** The braced pattern starts at an opening brace only. *)
Lemma match_at_braces_head c s : c ≠ chr "{" → match_at re_braces (c :: s) = None.
Proof.
  intros Hc. unfold match_at, re_braces.
  rewrite run_group, run_seq, run_lit. cbn [strip_prefix].
  destruct (N.eqb_spec (chr "{") c) as [<-|]; [done|].
  literals. cbn [strip_prefix]. destruct (123 =? c) eqn:E; [|done].
  apply N.eqb_eq in E. by subst.
Qed.

Lemma exec_braces_skip pre s :
  chr "{" ∉ pre → exec re_braces (pre ++ s) = exec re_braces s.
Proof.
  intros Hpre. apply exec_skip. intros a1 [|c a2] -> Hne; [done|].
  cbn [app]. apply match_at_braces_head. intros ->.
  apply Hpre. rewrite elem_of_app. right. by left.
Qed.

(** A greedy star over every character goes as far as what follows it
    allows: past a prefix when it succeeds behind it. *)
Lemma run_star_any_pass {A} u s cap (k : jsstring → option jsstring → option A) :
  is_Some (run (Star Any) s cap k) →
  run (Star Any) (u ++ s) cap k = run (Star Any) s cap k.
Proof.
  intros [y Hy]. induction u as [|c u IH]; [done|].
  cbn [app]. rewrite (run_star Any (c :: u ++ s) cap k). cbn [class_mem].
  by rewrite IH, Hy.
Qed.

(** It finds no closing brace where there is none. *)
Lemma run_star_no_close {A} post cap (k : jsstring → option jsstring → option A) :
  chr "}" ∉ post →
  run (Star Any) post cap (λ s' cap', run (Lit (str "}")) s' cap' k) = None.
Proof.
  induction post as [|c post IH]; intros Hc; rewrite run_star.
  - reflexivity.
  - cbn [class_mem]. rewrite IH by (intros Hin; apply Hc; by right).
    rewrite run_lit. literals. cbn [strip_prefix].
    destruct (N.eqb_spec 125 c) as [<-|]; [|done].
    exfalso. apply Hc. by left.
Qed.

(** The braced pattern at an opening brace: it captures up to the last
    closing brace of the text. *)
Lemma match_at_braces mid post :
  chr "}" ∉ post →
  match_at re_braces (chr "{" :: mid ++ chr "}" :: post)
  = Some {| whole := chr "{" :: mid ++ [chr "}"];
            group1 := Some (chr "{" :: mid ++ [chr "}"]) |}.
Proof.
  intros Hpost. unfold match_at, re_braces.
  rewrite run_group, run_seq, run_lit.
  change (chr "{" :: mid ++ chr "}" :: post) with (str "{" ++ mid ++ chr "}" :: post).
  rewrite strip_prefix_app. rewrite run_seq.
  assert (Hlast : ∀ k : jsstring → option jsstring → option match_array,
    run (Star Any) (chr "}" :: post) None (λ s' cap', run (Lit (str "}")) s' cap' k)
    = k post None).
  { intros k. rewrite run_star. cbn [class_mem].
    rewrite run_star_no_close by done.
    rewrite run_lit.
    change (chr "}" :: post) with (str "}" ++ post). by rewrite strip_prefix_app. }
  rewrite run_star_any_pass; rewrite Hlast.
  - cbv beta.
    change (str "{" ++ mid ++ chr "}" :: post) with (chr "{" :: mid ++ [chr "}"] ++ post).
    rewrite (assoc (++) mid), app_comm_cons, !take_app_minus. reflexivity.
  - by eexists.
Qed.

Lemma exec_braces pre mid post :
  chr "{" ∉ pre → chr "}" ∉ post →
  exec re_braces (pre ++ chr "{" :: mid ++ chr "}" :: post)
  = Some {| whole := chr "{" :: mid ++ [chr "}"];
            group1 := Some (chr "{" :: mid ++ [chr "}"]) |}.
Proof.
  intros Hpre Hpost. rewrite exec_braces_skip by done.
  apply exec_here. by apply match_at_braces.
Qed.

End RegExpGreedy.
Import RegExpGreedy.

(** X15.  Without a fenced block, the recovery goes from the first opening
    brace of the text to its last closing brace: the answer is what that
    span parses to, and 500 "Failed to parse AI response as JSON" when it
    does not parse. *)
Theorem braces_span pre mid post :
  let text := pre ++ chr "{" :: mid ++ chr "}" :: post in
  chr "{" ∉ pre → chr "}" ∉ post →
  JSON.parse text = None →
  RegExp.exec re_fenced text = None →
  groups text =
    match JSON.parse (chr "{" :: mid ++ [chr "}"]) with
    | Some v => Continue v
    | None =>
      Return (res_status_json 500
                (parse_error_body (str "Failed to parse AI response as JSON")
                   (take 500 text)))
    end.
Proof.
  intros text Hpre Hpost Hparse Hfenced. unfold groups, jsonMatch.
  rewrite Hparse, Hfenced. subst text. rewrite exec_braces by done.
  unfold matched_text. cbn [RegExp.group1 RegExp.whole truthy].
  rewrite bool_decide_eq_false_2 by done. reflexivity.
Qed.

(** * The properties at work *)

(** ** On concrete requests and responses *)

Lemma input_validation_witness :
  Get (obj []) (str "tabs") = Continue VUndefined
  ∧ @group_tabs v8_engine flaky (obj []) = Some ([], res_status_json 400 no_tabs_body)
  ∧ check_tabs (VArr [tab_value demo_tab]) = Continue ()
  ∧ ∃ trace r, @group_tabs v8_engine flaky demo_body = Some (trace, r)
               ∧ status r ≠ 400%Z.
Proof.
  split; [reflexivity|]. split.
  - apply (proj1 (@input_validation v8_engine flaky (obj []) VUndefined eq_refl)).
    left. reflexivity.
  - apply (proj2 (@input_validation v8_engine flaky demo_body
                    (VArr [tab_value demo_tab]) eq_refl) [tab_value demo_tab] eq_refl).
    discriminate.
Defined.

Lemma non_array_tabs_witness :
  ∃ e, @group_tabs v8_engine flaky (obj [(str "tabs", VStr (str "abc"))])
       = Some ([], res_status_json 500 (@went_wrong_body v8_engine (TypeError e))).
Proof.
  apply (@non_array_tabs v8_engine flaky _ (VStr (str "abc"))).
  - reflexivity.
  - reflexivity.
  - intros elems. discriminate.
  - intros len Hlen. vm_compute in Hlen. injection Hlen as <-. reflexivity.
Defined.

Lemma retry_until_success_witness :
  @group_tabs v8_engine flaky demo_body
  = Some ([Call (request demo_prompt); Wait 1000; Call (request demo_prompt);
           Wait 2000; Call (request demo_prompt)],
          @respond v8_engine (after_call (text_response (mapping_text demo_mapping)))).
Proof.
  apply (proj1 (@retry_until_success v8_engine flaky demo_body demo_prompt
                  ltac:(vm_compute; reflexivity))
           (Error (str "503")) (Error (str "timeout"))); reflexivity.
Defined.

Lemma retry_exhausted_witness :
  @group_tabs v8_engine (scripted []) demo_body
  = Some ([Call (request demo_prompt); Wait 1000; Call (request demo_prompt);
           Wait 2000; Call (request demo_prompt)],
          res_status_json 500 (@went_wrong_body v8_engine (Error (str "fetch failed")))).
Proof.
  apply (@retry_exhausted v8_engine (scripted []) demo_body demo_prompt
           (λ _, Error (str "fetch failed"))).
  - vm_compute. reflexivity.
  - intros n. unfold generateContent, scripted. destruct n; reflexivity.
Defined.

Lemma parse_error_prefix_witness :
  ∃ error,
    (error = str "Failed to parse AI response as JSON"
     ∨ error = str "No valid JSON found in AI response")
    ∧ res_status_json 500 (parse_error_body (str "No valid JSON found in AI response") (str "oops"))
      = res_status_json 500 (parse_error_body error (take 500 (str "oops")))
    ∧ length (take 500 (str "oops")) = (500 `min` length (str "oops"))%nat
    ∧ (take 500 (str "oops") = str "oops" ↔ (length (str "oops") ≤ 500)%nat).
Proof.
  apply (parse_error_prefix (str "oops")). vm_compute. reflexivity.
Defined.

Lemma text_extraction_priority_witness :
  resultText both_shapes = Continue (VStr (str "direct")).
Proof.
  apply (proj1 (text_extraction_priority both_shapes) (str "direct")).
  - reflexivity.
  - discriminate.
Defined.

Lemma prompt_of_batch_witness :
  @before_call v8_engine demo_body = Continue demo_prompt
  ∧ ∃ trace r, @group_tabs v8_engine flaky demo_body
               = Some (Call (request demo_prompt) :: trace, r).
Proof.
  apply (@prompt_of_batch v8_engine flaky [demo_tab] demo_body).
  - discriminate.
  - reflexivity.
Defined.

Lemma no_braces_witness :
  groups (str "Sorry, I cannot group these tabs.")
  = Return (res_status_json 500
              (parse_error_body (str "No valid JSON found in AI response")
                 (take 500 (str "Sorry, I cannot group these tabs.")))).
Proof.
  apply (proj2 (no_braces (str "Sorry, I cannot group these tabs.")
                  ltac:(by_compute) ltac:(by_compute))).
  vm_compute. reflexivity.
Defined.

Lemma fenced_mapping_recovered_witness :
  groups (fenced (str "Here you go: ") (mapping_text demo_mapping) (str " Enjoy!"))
  = Continue (mapping_value demo_mapping).
Proof.
  apply fenced_mapping_recovered; vm_compute; reflexivity.
Defined.

(** ** Further requests and responses *)

Lemma bad_request_iff_witness :
  ∃ tabs, Get (obj [(str "tabs", VStr [])]) (str "tabs") = Continue tabs
    ∧ (truthy tabs = false
       ∨ ∃ len, Get tabs (str "length") = Continue len ∧ strict_eq_zero len = true).
Proof.
  apply (proj1 (proj1 (@bad_request_iff v8_engine flaky (obj [(str "tabs", VStr [])])
                         [] (res_status_json 400 no_tabs_body) eq_refl))).
  reflexivity.
Defined.

Lemma ok_answer_witness :
  ∃ p k response g,
    @before_call v8_engine demo_body = Continue p
    ∧ backoff (request demo_prompt) 2 = backoff (request p) k
    ∧ @generateContent flaky k (request p) = Resolved response
    ∧ after_call response = Continue g
    ∧ res_json (mapping_value demo_mapping) = res_json g
    ∧ ((∃ elems, g = VArr elems) ∨ ∃ props, g = VObj props).
Proof.
  apply (@ok_answer v8_engine flaky demo_body).
  - vm_compute. reflexivity.
  - reflexivity.
Defined.

Lemma error_vocabulary_witness :
  ∃ msg,
    error_of (res_status_json 500 (@went_wrong_body v8_engine (Error (str "fetch failed"))))
    = Some (VStr msg)
    ∧ msg ∈ error_messages
    ∧ (500%Z = 400%Z ↔ msg = str "No tabs provided").
Proof.
  apply (@error_vocabulary v8_engine (scripted []) demo_body
           (backoff (request demo_prompt) 2)
           (res_status_json 500 (@went_wrong_body v8_engine (Error (str "fetch failed"))))).
  - vm_compute. reflexivity.
  - discriminate.
Defined.

Lemma retry_outcomes_witness :
  ∃ k, (k < 3)%nat
    ∧ (∀ i, (i < k)%nat → ∃ e, @generateContent flaky i (request demo_prompt) = Rejected e)
    ∧ backoff (request demo_prompt) 2 = backoff (request demo_prompt) k
    ∧ ((∃ response, @generateContent flaky k (request demo_prompt) = Resolved response
          ∧ res_json (mapping_value demo_mapping) = @respond v8_engine (after_call response))
       ∨ (k = 2%nat ∧ ∃ e, @generateContent flaky 2 (request demo_prompt) = Rejected e
            ∧ res_json (mapping_value demo_mapping)
              = res_status_json 500 (@went_wrong_body v8_engine e))).
Proof.
  apply (@retry_outcomes v8_engine flaky demo_body demo_prompt).
  - vm_compute. reflexivity.
  - vm_compute. reflexivity.
Defined.

Lemma upstream_needs_tabs_witness :
  ∃ elems lines,
    Get demo_body (str "tabs") = Continue (VArr elems)
    ∧ elems ≠ []
    ∧ map_step (@tab_line v8_engine) elems = Continue lines
    ∧ Forall (λ ev, ev = Call (request (prompt (join [newline] lines))) ∨ ∃ ms, ev = Wait ms)
        (backoff (request demo_prompt) 2).
Proof.
  apply (@upstream_needs_tabs v8_engine flaky demo_body _
           (res_json (mapping_value demo_mapping))).
  - vm_compute. reflexivity.
  - discriminate.
Defined.

Lemma null_tab_rejected_witness :
  ∃ e, @group_tabs v8_engine flaky holed_body
       = Some ([], res_status_json 500 (@went_wrong_body v8_engine (TypeError e))).
Proof.
  apply (@null_tab_rejected v8_engine flaky holed_body [tab_value demo_tab; VNull]).
  - reflexivity.
  - apply Exists_cons_tl, Exists_cons_hd. reflexivity.
Defined.

Lemma empty_response_not_retried_witness :
  @group_tabs v8_engine hollow demo_body
  = Some ([Call (request demo_prompt); Wait 1000; Call (request demo_prompt)],
          res_status_json 500 (@went_wrong_body v8_engine (TypeError NotAnObject))).
Proof.
  apply (@empty_response_not_retried v8_engine hollow demo_body demo_prompt 1 VNull).
  - vm_compute. reflexivity.
  - lia.
  - intros i Hi. assert (i = 0%nat) as -> by lia. eexists. reflexivity.
  - reflexivity.
  - reflexivity.
Defined.

Lemma extraction_error_keys_witness :
  ∃ keys, Object_keys usage_response = Continue keys
    ∧ after_call usage_response = Return (res_status_json 500 (unexpected_body keys))
    ∧ ∀ props, usage_response = VObj props →
        NoDup keys ∧ ∀ key, key ∈ keys ↔ is_Some (props !! key).
Proof.
  apply (extraction_error_keys usage_response VUndefined VUndefined).
  - reflexivity.
  - reflexivity.
  - reflexivity.
  - reflexivity.
  - by_compute.
Defined.

Lemma matched_text_braced_witness :
  ∃ before inner after,
    chatty = before ++ (chr "{" :: inner ++ [chr "}"]) ++ after
    ∧ Some (mapping_text demo_mapping) = Some (chr "{" :: inner ++ [chr "}"])
    ∧ mapping_text demo_mapping = chr "{" :: inner ++ [chr "}"].
Proof.
  apply (matched_text_braced chatty
           {| RegExp.whole := mapping_text demo_mapping;
              RegExp.group1 := Some (mapping_text demo_mapping) |}).
  vm_compute. reflexivity.
Defined.

Lemma braces_span_witness :
  groups chatty =
    match JSON.parse (mapping_text demo_mapping) with
    | Some v => Continue v
    | None =>
      Return (res_status_json 500
                (parse_error_body (str "Failed to parse AI response as JSON")
                   (take 500 chatty)))
    end.
Proof.
  apply (braces_span (str "Sure! ") (dquote :: str "Work" ++ dquote :: str ":[1,2]") (str " Hope this helps.")).
  - by_compute.
  - by_compute.
  - vm_compute. reflexivity.
  - vm_compute. reflexivity.
Defined.

Lemma grouped_batch_witness :
  @group_tabs v8_engine flaky demo_body
  = Some (backoff (request demo_prompt) 2, res_json (mapping_value demo_mapping)).
Proof.
  apply (@grouped_batch v8_engine flaky [demo_tab] demo_body demo_mapping 2).
  - discriminate.
  - reflexivity.
  - lia.
  - intros i Hi. destruct i as [|[|i]]; [| |lia]; eexists; reflexivity.
  - reflexivity.
Defined.

Lemma response_shapes_agree_witness :
  after_call (text_response (mapping_text demo_mapping))
  = after_call (VStr (mapping_text demo_mapping))
  ∧ after_call (candidates_response (mapping_text demo_mapping))
    = after_call (VStr (mapping_text demo_mapping)).
Proof. apply (response_shapes_agree (mapping_text demo_mapping)). discriminate. Defined.

Lemma tab_lines_merge_witness :
  (∃ p, @before_call v8_engine (obj [(str "tabs", VArr [tab_value demo_tab; tab_value other_tab])])
        = Continue p
        ∧ @before_call v8_engine
            (obj [(str "tabs", VArr [tab_value (@merged v8_engine demo_tab other_tab)])])
          = Continue p)
  ∧ @group_tabs v8_engine flaky (obj [(str "tabs", VArr [tab_value demo_tab; tab_value other_tab])])
    = @group_tabs v8_engine flaky
        (obj [(str "tabs", VArr [tab_value (@merged v8_engine demo_tab other_tab)])]).
Proof.
  apply (@tab_lines_merge v8_engine flaky [] [] demo_tab other_tab); reflexivity.
Defined.

(** ** Where the statements of the specification fail *)

(** C1.  An array passes the check and is the answer. *)
Lemma array_groups_returned :
  check_groups (VArr [VInt 1; VInt 2]) = Continue (VArr [VInt 1; VInt 2])
  ∧ after_call (text_response (str "[1, 2]")) = Continue (VArr [VInt 1; VInt 2]).
Proof. split; vm_compute; reflexivity. Qed.

(** C2.  A key that holds a closing brace and a fence ends the lazy match
    too early. *)
Lemma fenced_mapping_lost :
  ¬ (∀ (M : gmap jsstring (list Z)) before after,
       groups (fenced before (mapping_text M) after) = Continue (mapping_value M)).
Proof.
  intros Hall. specialize (Hall brace_key [] []).
  vm_compute in Hall. discriminate.
Qed.

(** C6.  A text without braces can be JSON by itself. *)
Lemma no_braces_parsed :
  (chr "{" ∉ str "[1, 2]") ∧ (chr "}" ∉ str "[1, 2]")
  ∧ groups (str "[1, 2]") = Continue (VArr [VInt 1; VInt 2])
  ∧ after_call (text_response (str "[1, 2]")) = Continue (VArr [VInt 1; VInt 2]).
Proof. repeat split; try by_compute; vm_compute; reflexivity. Qed.

(** C8.  A short text is in the answer in full. *)
Lemma short_text_in_full :
  groups (str "oops")
  = Return (res_status_json 500
              (parse_error_body (str "No valid JSON found in AI response") (str "oops"))).
Proof. vm_compute. reflexivity. Qed.

(** C10.  An object whose [length] is 0 is truthy, is no array, and is
    answered with 400. *)
Lemma zero_length_object :
  truthy (obj [(str "length", VInt 0)]) = true
  ∧ (∀ elems, obj [(str "length", VInt 0)] ≠ VArr elems)
  ∧ @group_tabs v8_engine flaky (obj [(str "tabs", obj [(str "length", VInt 0)])])
    = Some ([], res_status_json 400 no_tabs_body).
Proof. repeat split; try discriminate; vm_compute; reflexivity. Qed.
